(** * Pure-Rust BFV-style additive encryption and its external challenger

    Shallow embedding of [src/methods/guest/src/pure_rust_fhe.rs] (the
    guest runtime) and [src/challenger.rs] (the external challenger).

    Modelling conventions:
    - [u64] and [i64] values are [Z]; the range of a [u64] is [is_u64].
    - bytes are [Byte.byte]; a [Vec<u8>] is a [list Byte.byte].
    - a Rust panic (out-of-range index or slice, failed [expect], arithmetic
      overflow in a debug build) is the [Panic] outcome.
    - randomness ([rand::thread_rng], the Gaussian sampler) is an explicit
      argument: a stream [nat -> Z] of the already cast samples
      ([noise_sample.abs() as u64]), any value of which is allowed.
    - the text built by [format!] is kept as its template and arguments
      (inductive message types), not rendered into a string. *)

From Stdlib Require Import String Ascii ZArith Lia Bool QArith List.
From Stdlib Require Import Strings.Byte.
Import ListNotations.
Open Scope Z_scope.

(** ** Outcomes of Rust functions *)

Inductive outcome (A E : Type) : Type :=
| Ok (a : A)
| Err (e : E)
| Panic.
Arguments Ok {A E} a.
Arguments Err {A E} e.
Arguments Panic {A E}.

(** ** Parameters (shared by both files) *)

Definition PLAINTEXT_MODULUS : Z := 65537.
Definition CIPHERTEXT_MODULUS : Z := 288230376151711744.
Definition POLYNOMIAL_DEGREE : nat := 32.
Definition MAX_NOISE_BOUND : Z := PLAINTEXT_MODULUS / 16.
Definition NOISE_STANDARD_DEVIATION : Q := 319 # 100.

(** [CIPHERTEXT_MODULUS / PLAINTEXT_MODULUS], computed in both [encrypt]
    and [decrypt]. *)
Definition scaling_factor : Z := CIPHERTEXT_MODULUS / PLAINTEXT_MODULUS.

Definition is_u64 (x : Z) : Prop := 0 <= x < 2 ^ 64.

(** [u64::checked_add]. *)
Definition checked_add (a b : Z) : option Z :=
  if a + b <? 2 ^ 64 then Some (a + b) else None.

(** ** Bytes *)

Definition byte_of_Z (z : Z) : byte :=
  match Byte.of_N (Z.to_N (z mod 256)) with
  | Some b => b
  | None => x00
  end.

Definition Z_of_byte (b : byte) : Z := Z.of_N (Byte.to_N b).

(** The [k] low-order bytes of [x], least significant first. *)
Fixpoint le_bytes (k : nat) (x : Z) : list byte :=
  match k with
  | O => []
  | S k' => byte_of_Z x :: le_bytes k' (x / 256)
  end.

(** [u64::to_le_bytes]. *)
Definition to_le_bytes (x : Z) : list byte := le_bytes 8 x.

(** [u64::from_le_bytes] (applied to an 8-byte array). *)
Fixpoint from_le_bytes (bs : list byte) : Z :=
  match bs with
  | [] => 0
  | b :: bs' => Z_of_byte b + 256 * from_le_bytes bs'
  end.

(** [data[start..end]]: panics when the range is out of bounds. *)
Definition slice (start stop : nat) (data : list byte) : option (list byte) :=
  if (start <=? stop)%nat && (stop <=? length data)%nat
  then Some (firstn (stop - start) (skipn start data))
  else None.

(** [<[u8; 8]>::try_from(&[u8])]: succeeds exactly on 8-byte slices. *)
Definition try_into_array8 (s : list byte) : option (list byte) :=
  if (length s =? 8)%nat then Some s else None.

(** ** Data model of the guest runtime *)

Record Signed := { val : Z }.
Record PublicKey := { key_data : list Z }.
Record PrivateKey := { secret_data : list Z }.
Record Cipher := { ciphertext_data : list Z }.

Inductive EncryptReason :=
| NegativePlaintext (v : Z)
| ExceedsModulus (v m : Z)
| GaussianCreationFailed.

Inductive FheError :=
| InvalidCiphertextLength (expected actual : nat)
| InvalidByteSlice
| EncryptionFailed (reason : EncryptReason)
| DecryptionFailed
| KeyGenerationFailed.

(** [Cipher::serialize]: each coefficient's 8 little-endian bytes, in
    order. *)
Definition serialize (c : Cipher) : list byte :=
  flat_map to_le_bytes (ciphertext_data c).

(** The decoding loop shared (textually) by
    [PureRustFheRuntime::deserialize_ciphertext] and
    [ExternalChallenger::deserialize_and_decrypt]: for [i] in [0..count],
    read [data[i*8 .. i*8+8]] as a little-endian [u64]. Writing index [i]
    of [vec![0u64; count]] for [i = 0, 1, ...] in turn leaves the values in
    index order, so the vector is built as a list. [err] is the error the
    caller maps a failed [try_into] to. *)
Fixpoint decode_words {E : Type} (err : E) (data : list byte) (i : nat)
    (count : nat) : outcome (list Z) E :=
  match count with
  | O => Ok []
  | S count' =>
      match slice (i * 8) (i * 8 + 8) data with
      | None => Panic
      | Some s =>
          match try_into_array8 s with
          | None => Err err
          | Some bytes =>
              match decode_words err data (S i) count' with
              | Ok ws => Ok (from_le_bytes bytes :: ws)
              | Err e => Err e
              | Panic => Panic
              end
          end
      end
  end.

(** [PureRustFheRuntime::deserialize_ciphertext]. *)
Definition deserialize_ciphertext (data : list byte) : outcome Cipher FheError :=
  let expected_len := (POLYNOMIAL_DEGREE * 2 * 8)%nat in
  if negb (length data =? expected_len)%nat
  then Err (InvalidCiphertextLength expected_len (length data))
  else
    match decode_words InvalidByteSlice data 0 (POLYNOMIAL_DEGREE * 2) with
    | Ok ws => Ok {| ciphertext_data := ws |}
    | Err e => Err e
    | Panic => Panic
    end.

(** [Normal::new(0.0, std_dev)]: fails on a negative standard deviation. *)
Definition gaussian_new (std_dev : Q) : option unit :=
  if Qle_bool 0 std_dev then Some tt else None.

(** [PureRustFheRuntime::encrypt]. [rng 0] is the first Gaussian sample
    (for coefficient 0), [rng i] the sample drawn for coefficient [i]. The
    public key is not used, as in the source. *)
Definition encrypt (plaintext : Signed) (_public_key : PublicKey) (rng : nat -> Z)
    : outcome Cipher FheError :=
  if val plaintext <? 0 then Err (EncryptionFailed (NegativePlaintext (val plaintext)))
  else
    (* [plaintext.val as u64]: the identity on a non-negative [i64] *)
    let plaintext_u64 := val plaintext in
    if plaintext_u64 >=? PLAINTEXT_MODULUS
    then Err (EncryptionFailed (ExceedsModulus plaintext_u64 PLAINTEXT_MODULUS))
    else
      let plaintext_val := plaintext_u64 mod PLAINTEXT_MODULUS in
      match gaussian_new NOISE_STANDARD_DEVIATION with
      | None => Err (EncryptionFailed GaussianCreationFailed)
      | Some _ =>
          let scaled_plaintext := plaintext_val * scaling_factor in
          let noise_magnitude := rng O mod MAX_NOISE_BOUND in
          let c0 := (scaled_plaintext + noise_magnitude) mod CIPHERTEXT_MODULUS in
          let rest := map (fun i => rng i mod CIPHERTEXT_MODULUS)
                          (seq 1 (POLYNOMIAL_DEGREE * 2 - 1)) in
          Ok {| ciphertext_data := c0 :: rest |}
      end.

(** [PureRustFheRuntime::decrypt]: the private key is not used, as in the
    source. [ciphertext_data[0]] panics on an empty vector. *)
Definition decrypt (ciphertext : Cipher) (_private_key : PrivateKey)
    : outcome Signed FheError :=
  match ciphertext_data ciphertext with
  | [] => Panic
  | noisy_scaled_plaintext :: _ =>
      let descaled_val := noisy_scaled_plaintext / scaling_factor in
      let decrypted_val := descaled_val mod PLAINTEXT_MODULUS in
      Ok {| val := decrypted_val |}
  end.

(** [v[i] = x] on a [Vec]: panics when [i] is out of range. *)
Fixpoint set_nth (i : nat) (x : Z) (l : list Z) : option (list Z) :=
  match l, i with
  | [], _ => None
  | _ :: l', O => Some (x :: l')
  | y :: l', S i' => option_map (cons y) (set_nth i' x l')
  end.

(** The body of the loop of [Add for Cipher<Signed>] at one index. *)
Definition add_coeff (a b : Z) : Z :=
  let sum := match checked_add a b with
             | Some s => s
             | None => (a mod CIPHERTEXT_MODULUS) + (b mod CIPHERTEXT_MODULUS)
             end in
  sum mod CIPHERTEXT_MODULUS.

(** The loop [for i in 0..min(len1, len2)] of [Add for Cipher<Signed>]. *)
Fixpoint add_loop (i : nat) (xs ys : list Z) (result_data : list Z)
    : option (list Z) :=
  match xs, ys with
  | a :: xs', b :: ys' =>
      match set_nth i (add_coeff a b) result_data with
      | None => None
      | Some r => add_loop (S i) xs' ys' r
      end
  | _, _ => Some result_data
  end.

(** [impl std::ops::Add for Cipher<Signed>]; [None] is a panic. *)
Definition cipher_add (self other : Cipher) : option Cipher :=
  match add_loop 0 (ciphertext_data self) (ciphertext_data other)
                 (repeat 0 (POLYNOMIAL_DEGREE * 2)) with
  | Some r => Some {| ciphertext_data := r |}
  | None => None
  end.

(** [homomorphic_add]: [Ok(vec![current_tally + vote])]. *)
Definition homomorphic_add (current_tally vote : Cipher) (_public_key : PublicKey)
    : outcome (list Cipher) FheError :=
  match cipher_add current_tally vote with
  | Some r => Ok [r]
  | None => Panic
  end.

(** ** The external challenger *)

Record ChallengeKeys := { public_key : PublicKey; private_key : PrivateKey }.

Record FheParameters := {
  plaintext_modulus : Z;
  ciphertext_modulus : Z;
  polynomial_degree : nat;
  noise_std_dev : Q }.

Record ChallengeMetadata := {
  test_id : string;
  challenge_plaintexts : list Z;
  expected_operations : list string;
  timestamp : Z }.

Record ChallengeInput := {
  parameters : FheParameters;
  challenge_public_key : PublicKey;
  challenge_ciphertexts : list (list byte);
  challenge_metadata : ChallengeMetadata }.

Record ExternalChallenger := { keys : ChallengeKeys; challenger_parameters : FheParameters }.

Definition default_parameters : FheParameters := {|
  plaintext_modulus := PLAINTEXT_MODULUS;
  ciphertext_modulus := CIPHERTEXT_MODULUS;
  polynomial_degree := POLYNOMIAL_DEGREE;
  noise_std_dev := NOISE_STANDARD_DEVIATION |}.

(** [ExternalChallenger::encrypt]: no range check; the plaintext is cast
    to [u64] (wrapping) and reduced modulo [PLAINTEXT_MODULUS]. *)
Definition challenger_encrypt (plaintext : Signed) (rng : nat -> Z)
    : outcome Cipher EncryptReason :=
  let plaintext_val := (val plaintext mod 2 ^ 64) mod PLAINTEXT_MODULUS in
  match gaussian_new NOISE_STANDARD_DEVIATION with
  | None => Err GaussianCreationFailed
  | Some _ =>
      let scaled_plaintext := plaintext_val * scaling_factor in
      let noise_magnitude := rng O mod (PLAINTEXT_MODULUS / 16) in
      let c0 := (scaled_plaintext + noise_magnitude) mod CIPHERTEXT_MODULUS in
      let rest := map (fun i => rng i mod CIPHERTEXT_MODULUS)
                      (seq 1 (POLYNOMIAL_DEGREE * 2 - 1)) in
      Ok {| ciphertext_data := c0 :: rest |}
  end.

(** [ExternalChallenger::serialize_ciphertext]. *)
Definition serialize_ciphertext (c : Cipher) : list byte :=
  flat_map to_le_bytes (ciphertext_data c).

(** The loop of [ExternalChallenger::create_challenge]: vote [i] draws the
    plaintext [vote_rng i] ([rng.gen_range(0..3)]) and the noise stream
    [noise_rng i] for its encryption; [.expect] panics on an encryption
    error. Plaintexts and serialized ciphertexts are pushed in order. *)
Fixpoint challenge_loop (i count : nat) (vote_rng : nat -> Z)
    (noise_rng : nat -> nat -> Z) : option (list Z * list (list byte)) :=
  match count with
  | O => Some ([], [])
  | S count' =>
      let plaintext_val := vote_rng i in
      match challenger_encrypt {| val := plaintext_val |} (noise_rng i) with
      | Ok ciphertext =>
          let serialized := serialize_ciphertext ciphertext in
          match challenge_loop (S i) count' vote_rng noise_rng with
          | Some (ps, cs) => Some (plaintext_val :: ps, serialized :: cs)
          | None => None
          end
      | _ => None
      end
  end.

(** [ExternalChallenger::create_challenge]; [now] is the number of seconds
    since the Unix epoch read for the timestamp. [None] is a panic. *)
Definition create_challenge (self : ExternalChallenger) (test_id_arg : string)
    (num_votes : nat) (vote_rng : nat -> Z) (noise_rng : nat -> nat -> Z)
    (now : Z) : option ChallengeInput :=
  match challenge_loop 0 num_votes vote_rng noise_rng with
  | None => None
  | Some (challenge_plaintexts_v, challenge_ciphertexts_v) =>
      let metadata := {|
        test_id := test_id_arg;
        challenge_plaintexts := challenge_plaintexts_v;
        expected_operations := ["HomomorphicAdd"; "DecryptFinalTallies"]%string;
        timestamp := now |} in
      Some {|
        parameters := challenger_parameters self;
        challenge_public_key := public_key (keys self);
        challenge_ciphertexts := challenge_ciphertexts_v;
        challenge_metadata := metadata |}
  end.

(** The [String] errors of [deserialize_and_decrypt]. *)
Inductive ChallengerError :=
| InvalidCiphertextLengthMsg (expected actual : nat)
| InvalidByteSliceMsg.

(** [ExternalChallenger::deserialize_and_decrypt]; the private key is not
    read, as in the source. *)
Definition deserialize_and_decrypt (data : list byte) : outcome Signed ChallengerError :=
  let expected_len := (POLYNOMIAL_DEGREE * 2 * 8)%nat in
  if negb (length data =? expected_len)%nat
  then Err (InvalidCiphertextLengthMsg expected_len (length data))
  else
    match decode_words InvalidByteSliceMsg data 0 (POLYNOMIAL_DEGREE * 2) with
    | Ok ciphertext_data_v =>
        match ciphertext_data_v with
        | [] => Panic
        | noisy_scaled_plaintext :: _ =>
            let descaled_val := noisy_scaled_plaintext / scaling_factor in
            Ok {| val := descaled_val mod PLAINTEXT_MODULUS |}
        end
    | Err e => Err e
    | Panic => Panic
    end.

(** [ExternalChallenger::verify_receipt]: accepts every receipt. *)
Definition verify_receipt (_receipt : list byte) : bool := true.

(** Entries of [verification_log] and the texts of [error]. Indices are
    the 1-based [i + 1] printed by the source. *)
Inductive LogEntry :=
| RECEIPT_INVALID
| ResultDecrypted (index : nat) (value : Z)
| FheComputationVerified
| ProofComplete.

Inductive VerifyError :=
| ReceiptValidationFailed
| DecryptionFailedFor (index : nat) (e : ChallengerError)
| ArithmeticMismatch (expected actual : Z).

Record VerificationResult := {
  success : bool;
  error : option VerifyError;
  decrypted_results : option (list Z);
  verification_log : list LogEntry }.

Definition receipt_invalid_result : VerificationResult := {|
  success := false;
  error := Some ReceiptValidationFailed;
  decrypted_results := None;
  verification_log := [RECEIPT_INVALID] |}.

(** [i64] addition: a debug build panics on overflow, a release build
    wraps. [Iterator::sum] on [i64] folds this addition from [0]. *)
Inductive Profile := Debug | Release.

Definition i64_min : Z := - 2 ^ 63.
Definition i64_max : Z := 2 ^ 63 - 1.
Definition wrap_i64 (z : Z) : Z := (z + 2 ^ 63) mod 2 ^ 64 - 2 ^ 63.

Definition i64_add (prof : Profile) (a b : Z) : option Z :=
  match prof with
  | Debug => if (i64_min <=? a + b) && (a + b <=? i64_max) then Some (a + b) else None
  | Release => Some (wrap_i64 (a + b))
  end.

Fixpoint i64_sum_from (prof : Profile) (acc : Z) (l : list Z) : option Z :=
  match l with
  | [] => Some acc
  | x :: l' =>
      match i64_add prof acc x with
      | Some s => i64_sum_from prof s l'
      | None => None
      end
  end.

Definition i64_sum (prof : Profile) (l : list Z) : option Z := i64_sum_from prof 0 l.

(** A counter of the calls to [deserialize_and_decrypt], threaded as
    state. *)
Definition M (A : Type) : Type := nat -> A * nat.
Definition ret {A} (a : A) : M A := fun n => (a, n).
Definition bind {A B} (m : M A) (k : A -> M B) : M B :=
  fun n => let (a, n') := m n in k a n'.
Notation "x <- m ;; k" := (bind m (fun x => k))
  (at level 61, m at next level, right associativity).

Definition call_deserialize_and_decrypt (data : list byte)
    : M (outcome Signed ChallengerError) :=
  fun n => (deserialize_and_decrypt data, S n).

(** The loop [for (i, result_bytes) in result_ciphertexts.iter().enumerate()];
    [Err] carries the early [return]. *)
Fixpoint decrypt_results (i : nat) (rs : list (list byte)) (decrypted : list Z)
    (log : list LogEntry) : M (outcome (list Z * list LogEntry) VerificationResult) :=
  match rs with
  | [] => ret (Ok (decrypted, log))
  | result_bytes :: rs' =>
      r <- call_deserialize_and_decrypt result_bytes ;;
      match r with
      | Ok plaintext =>
          decrypt_results (S i) rs' (decrypted ++ [val plaintext])
            (log ++ [ResultDecrypted (S i) (val plaintext)])
      | Err e =>
          ret (Err {| success := false;
                      error := Some (DecryptionFailedFor (S i) e);
                      decrypted_results := None;
                      verification_log := log |})
      | Panic => ret Panic
      end
  end.

(** [ExternalChallenger::verify_zkvm_result] over a receipt check
    [verify_receipt_fn]; [None] is a panic. *)
Definition verify_zkvm_result_with (prof : Profile)
    (verify_receipt_fn : list byte -> bool) (challenge_input : ChallengeInput)
    (zkvm_receipt : list byte) (result_ciphertexts : list (list byte))
    : M (option VerificationResult) :=
  if negb (verify_receipt_fn zkvm_receipt) then ret (Some receipt_invalid_result)
  else
    r <- decrypt_results 0 result_ciphertexts [] [] ;;
    match r with
    | Panic => ret None
    | Err early => ret (Some early)
    | Ok (decrypted, log) =>
        match i64_sum prof (challenge_plaintexts (challenge_metadata challenge_input)) with
        | None => ret None
        | Some expected_sum =>
            match i64_sum prof decrypted with
            | None => ret None
            | Some actual_sum =>
                if expected_sum =? actual_sum
                then ret (Some {| success := true;
                                  error := None;
                                  decrypted_results := Some decrypted;
                                  verification_log :=
                                    log ++ [FheComputationVerified; ProofComplete] |})
                else ret (Some {| success := false;
                                  error := Some (ArithmeticMismatch expected_sum actual_sum);
                                  decrypted_results := Some decrypted;
                                  verification_log := log |})
            end
        end
    end.

(** [ExternalChallenger::verify_zkvm_result] as written: with
    [ExternalChallenger::verify_receipt]. *)
Definition verify_zkvm_result (prof : Profile) : ChallengeInput -> list byte ->
    list (list byte) -> M (option VerificationResult) :=
  verify_zkvm_result_with prof verify_receipt.

(** ** The guest program ([src/methods/guest/src/main.rs]) *)

Inductive VoteOption := Option1 | Option2 | Option3.

Record EncryptedVote := {
  voter_address : string;
  encrypted_vote_vector : list (list byte);
  signature : string;
  actual_choice : VoteOption }.

Record VoteTallyInput := { encrypted_votes : list EncryptedVote }.

(** The [u32] fields are [Z]s. *)
Record VoteTallyOutput := {
  option1_count : Z;
  option2_count : Z;
  option3_count : Z;
  total_votes : Z;
  computation_hash : string }.

Definition MAX_VOTES : nat := 10000.
Definition EXPECTED_CANDIDATES : nat := 3.
Definition MAX_CIPHERTEXT_SIZE : nat := 1024.

(** [u32] addition: a debug build panics on overflow, a release build
    wraps. Both arguments are [u32]s. *)
Definition u32_add (prof : Profile) (a b : Z) : option Z :=
  match prof with
  | Debug => if a + b <? 2 ^ 32 then Some (a + b) else None
  | Release => Some ((a + b) mod 2 ^ 32)
  end.

(** [x as u32] on an [i64]: the low 32 bits. *)
Definition as_u32 (x : Z) : Z := x mod 2 ^ 32.

(** [x << k] on a [u64], for [k < 64]. *)
Definition u64_shl (x k : Z) : Z := Z.shiftl x k mod 2 ^ 64.

(** One lower-case hexadecimal digit of [{:x}]. *)
Definition hex_digit (d : Z) : ascii :=
  ascii_of_nat (Z.to_nat (if d <? 10 then 48 + d else 87 + d)).

(** The digits of [{:x}], most significant first, without leading zeros;
    [fuel] bounds the number of digits (a [u64] has at most 16). *)
Fixpoint hex_digits (fuel : nat) (x : Z) : list ascii :=
  match fuel with
  | O => []
  | S fuel' =>
      if x =? 0 then [] else hex_digits fuel' (x / 16) ++ [hex_digit (x mod 16)]
  end.

(** [format!("{:016x}", x)] on a [u64]: [{:x}] prints [0] as ["0"], and
    the width 16 pads with ['0'] on the left. *)
Definition format_hex_016 (x : Z) : string :=
  let ds := match hex_digits 16 x with
            | [] => ["0"%char]
            | ds => ds
            end in
  string_of_list_ascii (repeat "0"%char (16 - length ds) ++ ds).

(** [create_computation_hash]: the counts are [u32]s, cast to [u64]
    (unchanged); [|] binds looser than [<<], and [wrapping_mul] multiplies
    modulo [2^64]. *)
Definition create_computation_hash (count1 count2 count3 : Z) : string :=
  let combined := Z.lor (Z.lor (u64_shl count1 32) (u64_shl count2 16)) count3 in
  let hash := (combined * 11400714819323198485) mod 2 ^ 64 in
  format_hex_016 hash.

Definition Tallies : Type := (Cipher * Cipher * Cipher)%type.

(** The inner loop [for (candidate_idx, encrypted_value_bytes) in ...]:
    a ciphertext that fails to deserialize is skipped ([continue]); the one
    at index [k] of [0, 1, 2] is added to tally [k + 1]; [None] is a
    panic. *)
Fixpoint add_candidates (candidate_idx : nat) (vs : list (list byte)) (t : Tallies)
    : option Tallies :=
  match vs with
  | [] => Some t
  | encrypted_value_bytes :: vs' =>
      match deserialize_ciphertext encrypted_value_bytes with
      | Panic => None
      | Err _ => add_candidates (S candidate_idx) vs' t
      | Ok encrypted_vote_cipher =>
          let '(tally_option1, tally_option2, tally_option3) := t in
          match candidate_idx with
          | O => match cipher_add tally_option1 encrypted_vote_cipher with
                 | Some t1 => add_candidates (S candidate_idx) vs' (t1, tally_option2, tally_option3)
                 | None => None
                 end
          | 1%nat => match cipher_add tally_option2 encrypted_vote_cipher with
                 | Some t2 => add_candidates (S candidate_idx) vs' (tally_option1, t2, tally_option3)
                 | None => None
                 end
          | 2%nat => match cipher_add tally_option3 encrypted_vote_cipher with
                 | Some t3 => add_candidates (S candidate_idx) vs' (tally_option1, tally_option2, t3)
                 | None => None
                 end
          | _ => add_candidates (S candidate_idx) vs' t
          end
      end
  end.

(** The validation of one vote: exactly [EXPECTED_CANDIDATES] ciphertexts,
    none longer than [MAX_CIPHERTEXT_SIZE] bytes (the size loop [break]s at
    the first one that is). *)
Definition vote_is_valid (v : EncryptedVote) : bool :=
  (length (encrypted_vote_vector v) =? EXPECTED_CANDIDATES)%nat &&
  negb (existsb (fun b => MAX_CIPHERTEXT_SIZE <? length b)%nat (encrypted_vote_vector v)).

(** The outer loop over [input.encrypted_votes]; an invalid vote is
    skipped ([continue]). *)
Fixpoint tally_votes (votes : list EncryptedVote) (t : Tallies) : option Tallies :=
  match votes with
  | [] => Some t
  | encrypted_vote :: votes' =>
      if negb (length (encrypted_vote_vector encrypted_vote) =? EXPECTED_CANDIDATES)%nat
      then tally_votes votes' t
      else if existsb (fun b => MAX_CIPHERTEXT_SIZE <? length b)%nat
                      (encrypted_vote_vector encrypted_vote)
      then tally_votes votes' t
      else match add_candidates 0 (encrypted_vote_vector encrypted_vote) t with
           | Some t' => tally_votes votes' t'
           | None => None
           end
  end.

(** [tally_encrypted_votes_with_fhe]. [generate_keys] draws the keys at
    random ([public_key], [private_key] are any keys: neither [encrypt]
    nor [decrypt] reads them); [rng1], [rng2], [rng3] are the noise
    streams of the three encryptions of zero. A failed encryption or
    decryption panics ([None]). *)
Definition tally_encrypted_votes_with_fhe (prof : Profile) (input : VoteTallyInput)
    (public_key : PublicKey) (private_key : PrivateKey) (rng1 rng2 rng3 : nat -> Z)
    : option VoteTallyOutput :=
  let zero_plaintext := {| val := 0 |} in
  match encrypt zero_plaintext public_key rng1,
        encrypt zero_plaintext public_key rng2,
        encrypt zero_plaintext public_key rng3 with
  | Ok tally_option1, Ok tally_option2, Ok tally_option3 =>
      match tally_votes (encrypted_votes input) (tally_option1, tally_option2, tally_option3) with
      | None => None
      | Some (t1, t2, t3) =>
          match decrypt t1 private_key, decrypt t2 private_key, decrypt t3 private_key with
          | Ok option1_plaintext, Ok option2_plaintext, Ok option3_plaintext =>
              let option1_count := as_u32 (val option1_plaintext) in
              let option2_count := as_u32 (val option2_plaintext) in
              let option3_count := as_u32 (val option3_plaintext) in
              match u32_add prof option1_count option2_count with
              | None => None
              | Some s =>
                  match u32_add prof s option3_count with
                  | None => None
                  | Some total =>
                      Some {| option1_count := option1_count;
                              option2_count := option2_count;
                              option3_count := option3_count;
                              total_votes := total;
                              computation_hash :=
                                create_computation_hash option1_count option2_count
                                  option3_count |}
                  end
              end
          | _, _, _ => None
          end
      end
  | _, _, _ => None
  end.

(** The guest's [main]: more than [MAX_VOTES] votes panic; the output is
    what is committed to the journal. *)
Definition guest_main (prof : Profile) (input : VoteTallyInput)
    (public_key : PublicKey) (private_key : PrivateKey) (rng1 rng2 rng3 : nat -> Z)
    : option VoteTallyOutput :=
  if (MAX_VOTES <? length (encrypted_votes input))%nat then None
  else tally_encrypted_votes_with_fhe prof input public_key private_key rng1 rng2 rng3.

(** ** The host-side client ([src/host/src/fhe_client.rs]) *)

Module Client.

Definition PLAINTEXT_MODULUS : Z := 1024.
Definition CIPHERTEXT_MODULUS : Z := 1099511627776.
Definition POLYNOMIAL_DEGREE : nat := 8.

(** [Normal::new(0.0, 3.2)]. *)
Definition noise_std_dev : Q := 32 # 10.

(** [PureRustFheRuntime::encrypt] of the client: no range check; [rng 0]
    is the noise of coefficient 0 and [rng i] the sample of coefficient
    [i]. The [[u64; 16]] array is a list of 16 words. *)
Definition encrypt (plaintext : Signed) (rng : nat -> Z) : outcome Cipher string :=
  let plaintext_val := (val plaintext mod 2 ^ 64) mod PLAINTEXT_MODULUS in
  match gaussian_new noise_std_dev with
  | None => Err "Failed to create Gaussian distribution"%string
  | Some _ =>
      let scaling_factor := CIPHERTEXT_MODULUS / PLAINTEXT_MODULUS in
      let scaled_plaintext := plaintext_val * scaling_factor in
      let noise_magnitude := rng O mod (PLAINTEXT_MODULUS / 8) in
      let c0 := (scaled_plaintext + noise_magnitude) mod CIPHERTEXT_MODULUS in
      let rest := map (fun i => rng i mod CIPHERTEXT_MODULUS)
                      (seq 1 (POLYNOMIAL_DEGREE * 2 - 1)) in
      Ok {| ciphertext_data := c0 :: rest |}
  end.

(** [VoteOption as usize] (host [types.rs]: [Option1 = 1], ...). *)
Definition vote_option_index (o : VoteOption) : nat :=
  match o with Option1 => 1 | Option2 => 2 | Option3 => 3 end.

Inductive FheClientError := EncryptionFailed (reason : string).

(** The loop of [FheClient::encrypt_vote_vector]; [rng k] is the noise
    stream of candidate [k]; [?] returns the first error. *)
Fixpoint encrypt_candidates (candidate_idx count : nat) (vote_choice : VoteOption)
    (rng : nat -> nat -> Z) : outcome (list (list byte)) FheClientError :=
  match count with
  | O => Ok []
  | S count' =>
      let vote_value := if (candidate_idx =? vote_option_index vote_choice - 1)%nat
                        then 1 else 0 in
      match encrypt {| val := vote_value |} (rng candidate_idx) with
      | Ok ciphertext =>
          match encrypt_candidates (S candidate_idx) count' vote_choice rng with
          | Ok rest => Ok (serialize ciphertext :: rest)
          | Err e => Err e
          | Panic => Panic
          end
      | Err e => Err (EncryptionFailed e)
      | Panic => Panic
      end
  end.

Definition encrypt_vote_vector (vote_choice : VoteOption) (rng : nat -> nat -> Z)
    : outcome (list (list byte)) FheClientError :=
  encrypt_candidates 0 3 vote_choice rng.

End Client.

(** ** The demonstration protocol ([src/fhe_proof_protocol.rs]) *)

Module Protocol.

Record ZkVmProofResult := {
  receipt : list byte;
  journal_data : list byte;
  execution_log : list string;
  image_id : string }.

(** The [VerificationResult] a test records: the challenger's, or the one
    built when the execution returned [None] (error ["zkVM execution
    failed"], log [["ZKVM_EXECUTION_FAILED"]], [success: false]). *)
Inductive TestVerification :=
| ChallengerVerification (v : VerificationResult)
| ZkVmExecutionFailed.

Definition verification_success (v : TestVerification) : bool :=
  match v with
  | ChallengerVerification r => success r
  | ZkVmExecutionFailed => false
  end.

Record ProtocolTestResult := {
  test_id : string;
  challenge_input : ChallengeInput;
  zkvm_result : option ZkVmProofResult;
  verification : option TestVerification;
  proof_valid : bool }.

Record FheProofProtocol := {
  challenger : ExternalChallenger;
  test_results : list ProtocolTestResult }.

(** [simulate_fhe_results]: [len + 1] blocks of [32 * 2 * 8] zero bytes. *)
Definition simulate_fhe_results (challenge : ChallengeInput) : list byte :=
  let num_results := (length (challenge_ciphertexts challenge) + 1)%nat in
  let result_size := (32 * 2 * 8)%nat in
  repeat x00 (num_results * result_size).

(** [execute_zkvm_with_challenge]: always [Some] simulated result. *)
Definition execute_zkvm_with_challenge (challenge : ChallengeInput)
    : option ZkVmProofResult :=
  Some {| receipt := repeat x00 32;
          journal_data := simulate_fhe_results challenge;
          execution_log := ["FHE runtime initialized"; "External public key loaded";
                            "Challenge ciphertexts deserialized";
                            "Homomorphic addition performed";
                            "Results serialized to journal";
                            "Proof generation completed"]%string;
          image_id := "sha256:abcd1234..."%string |}.

(** [extract_result_ciphertexts]: [journal_data.get(start..end)] is
    [slice]; [unwrap_or] falls back to [vec![0u8; result_size]]. *)
Definition extract_result_ciphertexts (journal_data_v : list byte) : list (list byte) :=
  let result_size := (32 * 2 * 8)%nat in
  let num_results := (length journal_data_v / result_size)%nat in
  map (fun i =>
         let start := (i * result_size)%nat in
         let stop := (start + result_size)%nat in
         match slice start stop journal_data_v with
         | Some s => s
         | None => repeat x00 result_size
         end)
      (seq 0 num_results).

(** [verify_zkvm_proof]. *)
Definition verify_zkvm_proof (prof : Profile) (challenge : ChallengeInput)
    (result : ZkVmProofResult) : M (option VerificationResult) :=
  let result_ciphertexts := extract_result_ciphertexts (journal_data result) in
  verify_zkvm_result prof challenge (receipt result) result_ciphertexts.

(** [run_proof_test]: the sampled plaintexts, noise and clock of
    [create_challenge] are its arguments; [None] is a panic. Returns
    [proof_valid] and the protocol with the test result pushed. *)
Definition run_proof_test (prof : Profile) (self : FheProofProtocol)
    (test_id_arg : string) (num_challenges : nat) (vote_rng : nat -> Z)
    (noise_rng : nat -> nat -> Z) (now : Z)
    : M (option (bool * FheProofProtocol)) :=
  match create_challenge (challenger self) test_id_arg num_challenges vote_rng noise_rng now with
  | None => ret None
  | Some challenge_input_v =>
      let zkvm_result_v := execute_zkvm_with_challenge challenge_input_v in
      v <- match zkvm_result_v with
           | Some result =>
               r <- verify_zkvm_proof prof challenge_input_v result ;;
               ret (option_map ChallengerVerification r)
           | None => ret (Some ZkVmExecutionFailed)
           end ;;
      match v with
      | None => ret None
      | Some verification_v =>
          let proof_valid_v := verification_success verification_v in
          let test_result := {| test_id := test_id_arg;
                                challenge_input := challenge_input_v;
                                zkvm_result := zkvm_result_v;
                                verification := Some verification_v;
                                proof_valid := proof_valid_v |} in
          ret (Some (proof_valid_v,
                     {| challenger := challenger self;
                        test_results := test_results self ++ [test_result] |}))
      end
  end.

End Protocol.

(** [run_challenge_protocol] of [src/challenger.rs]: a challenge of 5
    vectors, answered with [5] placeholder results of [32 * 2 * 8] zero
    bytes and a zero receipt; returns the verification. *)
Definition run_challenge_protocol (prof : Profile) (challenger : ExternalChallenger)
    (vote_rng : nat -> Z) (noise_rng : nat -> nat -> Z) (now : Z)
    : M (option VerificationResult) :=
  match create_challenge challenger "mathematical_proof_test" 5 vote_rng noise_rng now with
  | None => ret None
  | Some challenge =>
      let simulated_receipt := repeat x00 32 in
      let simulated_results :=
        repeat (repeat x00 (POLYNOMIAL_DEGREE * 2 * 8)) (length (challenge_ciphertexts challenge)) in
      verify_zkvm_result prof challenge simulated_receipt simulated_results
  end.

(** * Properties *)

(** ** Bytes *)

Lemma Z_of_byte_of_Z (z : Z) : Z_of_byte (byte_of_Z z) = z mod 256.
Proof.
  unfold Z_of_byte, byte_of_Z.
  pose proof (Byte.to_of_N_option_map (Z.to_N (z mod 256))) as H.
  assert (Hr : 0 <= z mod 256 < 256) by (apply Z.mod_pos_bound; lia).
  destruct (Byte.of_N (Z.to_N (z mod 256))) as [b|]; simpl in H.
  - replace (N.leb (Z.to_N (z mod 256)) 255) with true in H
      by (symmetry; apply N.leb_le; lia).
    injection H as H. rewrite H. apply Z2N.id; lia.
  - replace (N.leb (Z.to_N (z mod 256)) 255) with true in H
      by (symmetry; apply N.leb_le; lia).
    discriminate.
Qed.

Lemma Z_of_byte_range (b : byte) : 0 <= Z_of_byte b < 256.
Proof.
  unfold Z_of_byte. pose proof (Byte.to_N_bounded b). lia.
Qed.

Lemma le_bytes_length (k : nat) (x : Z) : length (le_bytes k x) = k.
Proof.
  revert x; induction k as [|k IH]; intros x; simpl; [reflexivity | now rewrite IH].
Qed.

Lemma from_le_bytes_le_bytes (k : nat) (x : Z) :
  from_le_bytes (le_bytes k x) = x mod 256 ^ Z.of_nat k.
Proof.
  revert x; induction k as [|k IH]; intros x.
  - simpl. now rewrite Z.mod_1_r.
  - cbn [le_bytes from_le_bytes]. rewrite Z_of_byte_of_Z, IH.
    rewrite Nat2Z.inj_succ, Z.pow_succ_r by lia.
    rewrite Z.rem_mul_r; [reflexivity | lia | apply Z.pow_pos_nonneg; lia].
Qed.

Lemma from_to_le_bytes (x : Z) : from_le_bytes (to_le_bytes x) = x mod 2 ^ 64.
Proof.
  unfold to_le_bytes. rewrite from_le_bytes_le_bytes. reflexivity.
Qed.

Lemma to_le_bytes_length (x : Z) : length (to_le_bytes x) = 8%nat.
Proof. apply le_bytes_length. Qed.

Lemma flat_map_to_le_bytes_length (ws : list Z) :
  length (flat_map to_le_bytes ws) = (8 * length ws)%nat.
Proof.
  induction ws as [|w ws IH]; [reflexivity|]. cbn [flat_map length].
  rewrite length_app, to_le_bytes_length, IH. lia.
Qed.

(** The decoding loop reads the [count] words starting at word [i], in
    order, whenever they lie inside the buffer. *)
Lemma decode_words_spec {E : Type} (err : E) (data : list byte) (count i : nat) :
  ((i + count) * 8 <= length data)%nat ->
  decode_words err data i count =
  Ok (map (fun j => from_le_bytes (firstn 8 (skipn (j * 8) data))) (seq i count)).
Proof.
  revert i; induction count as [|count IH]; intros i Hlen; [reflexivity|].
  cbn [decode_words seq map].
  unfold slice.
  replace ((i * 8 <=? i * 8 + 8)%nat && (i * 8 + 8 <=? length data)%nat) with true
    by (symmetry; apply andb_true_intro; split; apply Nat.leb_le; lia).
  unfold try_into_array8.
  rewrite length_firstn, length_skipn.
  replace (Nat.min (i * 8 + 8 - i * 8) (length data - i * 8) =? 8)%nat with true
    by (symmetry; apply Nat.eqb_eq; lia).
  rewrite IH by lia.
  replace (i * 8 + 8 - i * 8)%nat with 8%nat by lia.
  reflexivity.
Qed.

(** Reading the words of a serialized vector back. *)
Lemma decode_flat_map (ws : list Z) (pre : list byte) (k : nat) :
  length pre = (k * 8)%nat ->
  map (fun j => from_le_bytes (firstn 8 (skipn (j * 8) (pre ++ flat_map to_le_bytes ws))))
      (seq k (length ws))
  = map (fun w => w mod 2 ^ 64) ws.
Proof.
  revert pre k; induction ws as [|w ws IH]; intros pre k Hpre; [reflexivity|].
  cbn [length seq map flat_map].
  rewrite skipn_app, Hpre, Nat.sub_diag, skipn_O.
  rewrite skipn_all2 by lia. cbn [app].
  rewrite firstn_app, to_le_bytes_length, Nat.sub_diag, firstn_O, app_nil_r.
  rewrite firstn_all2 by (rewrite to_le_bytes_length; lia).
  rewrite from_to_le_bytes. f_equal.
  rewrite app_assoc. apply IH.
  rewrite length_app, Hpre, to_le_bytes_length. lia.
Qed.

(** ** Serialization *)

(** C7: [deserialize_ciphertext] fails with
    [InvalidCiphertextLength { expected: 16n, actual: data.len() }] on every
    buffer whose length is not [16n] bytes, and on a buffer of exactly [16n]
    bytes returns the [2n] little-endian 8-byte words of the buffer, in
    order. *)
Theorem deserialize_length_validation (data : list byte) :
  (length data <> (16 * POLYNOMIAL_DEGREE)%nat ->
   deserialize_ciphertext data =
   Err (InvalidCiphertextLength (16 * POLYNOMIAL_DEGREE) (length data))) /\
  (length data = (16 * POLYNOMIAL_DEGREE)%nat ->
   deserialize_ciphertext data =
   Ok {| ciphertext_data :=
           map (fun j => from_le_bytes (firstn 8 (skipn (j * 8) data)))
               (seq 0 (2 * POLYNOMIAL_DEGREE)) |}).
Proof.
  unfold deserialize_ciphertext. split; intros Hlen.
  - apply Nat.eqb_neq in Hlen. change (POLYNOMIAL_DEGREE * 2 * 8)%nat with 512%nat.
    change (16 * POLYNOMIAL_DEGREE)%nat with 512%nat in Hlen |- *.
    now rewrite Hlen.
  - change (16 * POLYNOMIAL_DEGREE)%nat with 512%nat in Hlen.
    change (POLYNOMIAL_DEGREE * 2 * 8)%nat with 512%nat.
    rewrite Hlen. cbn [Nat.eqb negb].
    rewrite decode_words_spec by (change (POLYNOMIAL_DEGREE * 2)%nat with 64%nat; lia).
    reflexivity.
Qed.

(** C8: for every ciphertext of [2n] [u64] coefficients, deserializing
    its serialization gives it back. *)
Theorem serialize_roundtrip (c : Cipher) :
  length (ciphertext_data c) = (2 * POLYNOMIAL_DEGREE)%nat ->
  Forall is_u64 (ciphertext_data c) ->
  deserialize_ciphertext (serialize c) = Ok c.
Proof.
  intros Hlen Hu64. destruct c as [ws]; cbn [ciphertext_data] in *.
  unfold deserialize_ciphertext, serialize; cbn [ciphertext_data].
  rewrite flat_map_to_le_bytes_length, Hlen.
  change (8 * (2 * POLYNOMIAL_DEGREE))%nat with (POLYNOMIAL_DEGREE * 2 * 8)%nat.
  rewrite Nat.eqb_refl. cbn [negb].
  rewrite decode_words_spec
    by (rewrite flat_map_to_le_bytes_length, Hlen; cbv; lia).
  change (POLYNOMIAL_DEGREE * 2)%nat with (2 * POLYNOMIAL_DEGREE)%nat.
  rewrite <- Hlen.
  pose proof (decode_flat_map ws [] 0 eq_refl) as Hd. cbn [app] in Hd.
  rewrite Hd.
  do 2 f_equal. clear Hd Hlen.
  induction Hu64 as [|w ws Hw _ IH]; [reflexivity|].
  cbn [map]. rewrite IH, Z.mod_small by exact Hw. reflexivity.
Qed.

Lemma serialize_roundtrip_witness :
  let c := {| ciphertext_data := map (fun i => Z.of_nat i * 1000003) (seq 0 64) |} in
  length (ciphertext_data c) = (2 * POLYNOMIAL_DEGREE)%nat /\
  Forall is_u64 (ciphertext_data c) /\
  deserialize_ciphertext (serialize c) = Ok c.
Proof.
  intros c.
  assert (Hl : length (ciphertext_data c) = (2 * POLYNOMIAL_DEGREE)%nat)
    by reflexivity.
  assert (Hu : Forall is_u64 (ciphertext_data c)).
  { apply Forall_forall. intros x Hx. simpl in Hx.
    unfold is_u64. repeat (destruct Hx as [<-|Hx]; [lia|]). destruct Hx. }
  split; [exact Hl | split; [exact Hu | apply (serialize_roundtrip c Hl Hu)]].
Defined.

(** ** Homomorphic addition *)

Lemma set_nth_spec (i : nat) (x : Z) (l : list Z) :
  (i < length l)%nat ->
  exists l', set_nth i x l = Some l' /\ length l' = length l /\
             nth i l' 0 = x /\ (forall j, j <> i -> nth j l' 0 = nth j l 0).
Proof.
  revert i; induction l as [|y l IH]; intros i Hi; [simpl in Hi; lia|].
  destruct i as [|i]; cbn [set_nth].
  - exists (x :: l). split; [reflexivity|]. split; [reflexivity|].
    split; [reflexivity|]. intros [|j] Hj; [contradiction | reflexivity].
  - destruct (IH i) as (l' & Hs & Hl & Hi' & Ho); [simpl in Hi; lia|].
    rewrite Hs. exists (y :: l'). split; [reflexivity|].
    split; [simpl; now rewrite Hl|]. split; [exact Hi'|].
    intros [|j] Hj; [reflexivity|]. simpl. apply Ho. lia.
Qed.

(** The loop body always computes the residue of the exact sum: the
    fallback of [checked_add] reduces both operands first. *)
Lemma add_coeff_spec (a b : Z) : add_coeff a b = (a + b) mod CIPHERTEXT_MODULUS.
Proof.
  unfold add_coeff, checked_add.
  destruct (a + b <? 2 ^ 64); [reflexivity|].
  symmetry. apply Z.add_mod. discriminate.
Qed.

Lemma add_loop_spec (xs ys : list Z) :
  length xs = length ys ->
  forall i res, (i + length xs <= length res)%nat ->
  exists res', add_loop i xs ys res = Some res' /\ length res' = length res /\
    (forall j, (j < i \/ i + length xs <= j)%nat -> nth j res' 0 = nth j res 0) /\
    (forall k, (k < length xs)%nat ->
       nth (i + k) res' 0 = add_coeff (nth k xs 0) (nth k ys 0)).
Proof.
  revert ys; induction xs as [|a xs IH]; intros ys Hlen i res Hi.
  - destruct ys; [|discriminate]. exists res. repeat split; auto.
    intros k Hk; simpl in Hk; lia.
  - destruct ys as [|b ys]; [discriminate|]. cbn [length] in *.
    destruct (set_nth_spec i (add_coeff a b) res) as (r & Hs & Hrl & Hri & Hro);
      [lia|].
    cbn [add_loop]. rewrite Hs.
    destruct (IH ys ltac:(lia) (S i) r ltac:(lia)) as (res' & Ha & Hl & Ho & Hk).
    exists res'. split; [exact Ha|]. split; [lia|]. split.
    + intros j Hj. rewrite Ho by lia. apply Hro. lia.
    + intros [|k] Hk'.
      * rewrite Nat.add_0_r, Ho by lia. exact Hri.
      * replace (i + S k)%nat with (S i + k)%nat by lia.
        apply Hk. lia.
Qed.

(** Coefficient-wise addition of two ciphertexts of [2n] coefficients. *)
Lemma cipher_add_coeffs (c1 c2 : Cipher) (pk : PublicKey) :
  length (ciphertext_data c1) = (2 * POLYNOMIAL_DEGREE)%nat ->
  length (ciphertext_data c2) = (2 * POLYNOMIAL_DEGREE)%nat ->
  exists c3,
    cipher_add c1 c2 = Some c3 /\
    homomorphic_add c1 c2 pk = Ok [c3] /\
    length (ciphertext_data c3) = (2 * POLYNOMIAL_DEGREE)%nat /\
    forall i, (i < 2 * POLYNOMIAL_DEGREE)%nat ->
      nth i (ciphertext_data c3) 0 =
      (nth i (ciphertext_data c1) 0 + nth i (ciphertext_data c2) 0)
        mod CIPHERTEXT_MODULUS.
Proof.
  intros H1 H2.
  destruct (add_loop_spec (ciphertext_data c1) (ciphertext_data c2)
              ltac:(congruence) 0 (repeat 0 (POLYNOMIAL_DEGREE * 2)))
    as (r & Ha & Hl & _ & Hk).
  { rewrite repeat_length, H1. lia. }
  rewrite repeat_length in Hl.
  exists {| ciphertext_data := r |}.
  unfold homomorphic_add, cipher_add. rewrite Ha.
  split; [reflexivity|]. split; [reflexivity|]. cbn [ciphertext_data].
  split; [lia|].
  intros i Hi. rewrite <- add_coeff_spec. apply (Hk i). lia.
Qed.

(** C9: adding two ciphertexts of [2n] coefficients never panics and gives
    [2n] coefficients, coefficient [i] being [(c1[i] + c2[i]) mod Q], also
    where the 64-bit sum overflows; [homomorphic_add] returns it as
    [Ok(vec![c3])]. *)
Theorem homomorphic_add_componentwise (c1 c2 : Cipher) (pk : PublicKey) :
  length (ciphertext_data c1) = (2 * POLYNOMIAL_DEGREE)%nat ->
  length (ciphertext_data c2) = (2 * POLYNOMIAL_DEGREE)%nat ->
  exists c3,
    cipher_add c1 c2 = Some c3 /\
    homomorphic_add c1 c2 pk = Ok [c3] /\
    length (ciphertext_data c3) = (2 * POLYNOMIAL_DEGREE)%nat /\
    forall i, (i < 2 * POLYNOMIAL_DEGREE)%nat ->
      nth i (ciphertext_data c3) 0 =
      (nth i (ciphertext_data c1) 0 + nth i (ciphertext_data c2) 0)
        mod CIPHERTEXT_MODULUS.
Proof.
  intros H1 H2.
  destruct (add_loop_spec (ciphertext_data c1) (ciphertext_data c2)
              ltac:(congruence) 0 (repeat 0 (POLYNOMIAL_DEGREE * 2)))
    as (r & Ha & Hl & _ & Hk).
  { rewrite repeat_length, H1. lia. }
  rewrite repeat_length in Hl.
  exists {| ciphertext_data := r |}.
  unfold homomorphic_add, cipher_add. rewrite Ha.
  split; [reflexivity|]. split; [reflexivity|]. cbn [ciphertext_data].
  split; [lia|].
  intros i Hi. rewrite <- add_coeff_spec. apply (Hk i). lia.
Qed.

Lemma homomorphic_add_componentwise_witness :
  let c := {| ciphertext_data := repeat (2 ^ 64 - 1) 64 |} in
  length (ciphertext_data c) = (2 * POLYNOMIAL_DEGREE)%nat /\
  exists c3,
    cipher_add c c = Some c3 /\
    homomorphic_add c c {| key_data := [] |} = Ok [c3] /\
    length (ciphertext_data c3) = (2 * POLYNOMIAL_DEGREE)%nat /\
    forall i, (i < 2 * POLYNOMIAL_DEGREE)%nat ->
      nth i (ciphertext_data c3) 0 =
      (nth i (ciphertext_data c) 0 + nth i (ciphertext_data c) 0)
        mod CIPHERTEXT_MODULUS.
Proof.
  intros c. split; [reflexivity|].
  apply (homomorphic_add_componentwise c c {| key_data := [] |});
    vm_compute; reflexivity.
Defined.

(** ** Encryption and decryption *)

Lemma scaling_factor_value : scaling_factor = 4397979403263.
Proof. reflexivity. Qed.

(** [Q] is not a multiple of [P]: [Q = P * S + 64513]. *)
Lemma ciphertext_modulus_split :
  CIPHERTEXT_MODULUS = PLAINTEXT_MODULUS * scaling_factor + 64513.
Proof. reflexivity. Qed.

Lemma gaussian_new_ok : gaussian_new NOISE_STANDARD_DEVIATION = Some tt.
Proof. reflexivity. Qed.

Lemma noise_range (z : Z) : 0 <= z mod MAX_NOISE_BOUND < 4096.
Proof. apply Z.mod_pos_bound. reflexivity. Qed.

(** A plaintext of [[0, P)] encrypts to its scaled value plus the noise in
    coefficient 0: the sum stays below [Q]. *)
Lemma encrypt_in_range (m : Z) (pk : PublicKey) (rng : nat -> Z) :
  0 <= m < PLAINTEXT_MODULUS ->
  encrypt {| val := m |} pk rng =
  Ok {| ciphertext_data :=
          (m * scaling_factor + rng O mod MAX_NOISE_BOUND)
          :: map (fun i => rng i mod CIPHERTEXT_MODULUS)
                 (seq 1 (POLYNOMIAL_DEGREE * 2 - 1)) |}.
Proof.
  intros Hm. unfold encrypt. cbn [val].
  replace (m <? 0) with false by (symmetry; apply Z.ltb_ge; lia).
  replace (m >=? PLAINTEXT_MODULUS) with false
    by (symmetry; rewrite Z.geb_leb; apply Z.leb_gt; lia).
  rewrite gaussian_new_ok, (Z.mod_small m) by lia.
  do 3 f_equal.
  pose proof (noise_range (rng O)).
  unfold PLAINTEXT_MODULUS in Hm.
  apply Z.mod_small. rewrite scaling_factor_value. unfold CIPHERTEXT_MODULUS. lia.
Qed.

Lemma encrypt_length (m : Z) (pk : PublicKey) (rng : nat -> Z) (c : Cipher) :
  encrypt {| val := m |} pk rng = Ok c ->
  length (ciphertext_data c) = (2 * POLYNOMIAL_DEGREE)%nat.
Proof.
  unfold encrypt. cbn [val].
  destruct (m <? 0); [discriminate|].
  destruct (m >=? PLAINTEXT_MODULUS); [discriminate|].
  rewrite gaussian_new_ok. intros H. injection H as <-.
  reflexivity.
Qed.

Lemma decrypt_head (c : Cipher) (sk : PrivateKey) (x : Z) (rest : list Z) :
  ciphertext_data c = x :: rest ->
  decrypt c sk = Ok {| val := (x / scaling_factor) mod PLAINTEXT_MODULUS |}.
Proof. intros H. unfold decrypt. now rewrite H. Qed.

(** C1 (as amended): for [a, b] in [[0, P)] and any noise samples, the
    accumulated noise is below [2 * 4096], far below [S / 2], and the
    decryption of [encrypt a + encrypt b] is [(a + b) mod P] when
    [a + b <= P]; when [a + b > P] coefficient 0 wraps modulo [Q], and as
    [Q = P * S + 64513] it decrypts to [a + b - P - 1]. *)
Theorem homomorphic_sum_decrypts (a b : Z) (pk : PublicKey) (sk : PrivateKey)
    (rng1 rng2 : nat -> Z) :
  0 <= a < PLAINTEXT_MODULUS -> 0 <= b < PLAINTEXT_MODULUS ->
  0 <= rng1 O mod MAX_NOISE_BOUND + rng2 O mod MAX_NOISE_BOUND < 2 * 4096 /\
  2 * 4096 < scaling_factor / 2 /\
  exists ca cb c,
    encrypt {| val := a |} pk rng1 = Ok ca /\
    encrypt {| val := b |} pk rng2 = Ok cb /\
    cipher_add ca cb = Some c /\
    decrypt c sk =
    Ok {| val := if a + b <=? PLAINTEXT_MODULUS
                 then (a + b) mod PLAINTEXT_MODULUS
                 else a + b - PLAINTEXT_MODULUS - 1 |}.
Proof.
  intros Ha Hb.
  pose proof (noise_range (rng1 O)) as Hn1.
  pose proof (noise_range (rng2 O)) as Hn2.
  split; [lia|].
  split; [rewrite scaling_factor_value;
          change (4397979403263 / 2) with 2198989701631; lia|].
  set (ca := {| ciphertext_data :=
          (a * scaling_factor + rng1 O mod MAX_NOISE_BOUND)
          :: map (fun i => rng1 i mod CIPHERTEXT_MODULUS)
                 (seq 1 (POLYNOMIAL_DEGREE * 2 - 1)) |}).
  set (cb := {| ciphertext_data :=
          (b * scaling_factor + rng2 O mod MAX_NOISE_BOUND)
          :: map (fun i => rng2 i mod CIPHERTEXT_MODULUS)
                 (seq 1 (POLYNOMIAL_DEGREE * 2 - 1)) |}).
  assert (Hea : encrypt {| val := a |} pk rng1 = Ok ca) by now apply encrypt_in_range.
  assert (Heb : encrypt {| val := b |} pk rng2 = Ok cb) by now apply encrypt_in_range.
  destruct (cipher_add_coeffs ca cb pk
              (encrypt_length _ _ _ _ Hea) (encrypt_length _ _ _ _ Heb))
    as (c & Hadd & _ & Hlen & Hnth).
  exists ca, cb, c. split; [exact Hea|]. split; [exact Heb|]. split; [exact Hadd|].
  specialize (Hnth O ltac:(cbv; lia)). cbn [ca cb ciphertext_data nth] in Hnth.
  destruct (ciphertext_data c) as [|x rest] eqn:Hc; [cbv in Hlen; discriminate|].
  rewrite (decrypt_head c sk x rest Hc). cbn [nth] in Hnth. subst x.
  set (n := rng1 O mod MAX_NOISE_BOUND + rng2 O mod MAX_NOISE_BOUND).
  assert (Hn : 0 <= n < 8192) by (unfold n; lia).
  replace (a * scaling_factor + rng1 O mod MAX_NOISE_BOUND +
           (b * scaling_factor + rng2 O mod MAX_NOISE_BOUND))
    with ((a + b) * scaling_factor + n) by (unfold n; lia).
  do 2 f_equal.
  rewrite ciphertext_modulus_split. rewrite scaling_factor_value in *.
  unfold PLAINTEXT_MODULUS in *.
  destruct (Z.leb_spec (a + b) 65537) as [Hle|Hgt].
  - rewrite (Z.mod_small ((a + b) * 4397979403263 + n)) by lia.
    rewrite Z.div_add_l, (Z.div_small n) by lia.
    now rewrite Z.add_0_r.
  - rewrite <- (Z.mod_unique_pos ((a + b) * 4397979403263 + n)
                  (65537 * 4397979403263 + 64513) 1
                  ((a + b) * 4397979403263 + n - (65537 * 4397979403263 + 64513)))
      by lia.
    rewrite <- (Z.div_unique_pos
                  ((a + b) * 4397979403263 + n - (65537 * 4397979403263 + 64513))
                  4397979403263 (a + b - 65537 - 1) (4397979403263 + n - 64513))
      by lia.
    apply Z.mod_small. lia.
Qed.

Lemma homomorphic_sum_decrypts_witness :
  0 <= 5 < PLAINTEXT_MODULUS /\ 0 <= 3 < PLAINTEXT_MODULUS /\
  0 <= (fun (_ : nat) => 4095) O mod MAX_NOISE_BOUND +
  (fun (_ : nat) => 17) O mod MAX_NOISE_BOUND < 2 * 4096 /\
  2 * 4096 < scaling_factor / 2 /\
  exists ca cb c,
    encrypt {| val := 5 |} {| key_data := [] |} (fun _ => 4095) = Ok ca /\
    encrypt {| val := 3 |} {| key_data := [] |} (fun _ => 17) = Ok cb /\
    cipher_add ca cb = Some c /\
    decrypt c {| secret_data := [] |} =
    Ok {| val := if 5 + 3 <=? PLAINTEXT_MODULUS
                 then (5 + 3) mod PLAINTEXT_MODULUS
                 else 5 + 3 - PLAINTEXT_MODULUS - 1 |}.
Proof.
  split; [unfold PLAINTEXT_MODULUS; lia|].
  split; [unfold PLAINTEXT_MODULUS; lia|].
  apply (homomorphic_sum_decrypts 5 3 {| key_data := [] |} {| secret_data := [] |}
           (fun _ => 4095) (fun _ => 17)); unfold PLAINTEXT_MODULUS; lia.
Defined.

(** C1 as stated fails at [a = 65536], [b = 2] with zero noise: the noise
    is below [S / 2], yet the sum decrypts to [0], not [(a + b) mod P = 1]. *)
Lemma homomorphic_sum_wrap_counterexample :
  (fun (_ : nat) => 0) O mod MAX_NOISE_BOUND +
  (fun (_ : nat) => 0) O mod MAX_NOISE_BOUND < scaling_factor / 2 /\
  (65536 + 2) mod PLAINTEXT_MODULUS = 1 /\
  (match encrypt {| val := 65536 |} {| key_data := [] |} (fun _ => 0),
         encrypt {| val := 2 |} {| key_data := [] |} (fun _ => 0) with
   | Ok ca, Ok cb =>
       option_map (fun c => decrypt c {| secret_data := [] |}) (cipher_add ca cb)
   | _, _ => None
   end) = Some (Ok {| val := 0 |}).
Proof.
  split; [rewrite scaling_factor_value; reflexivity|].
  split; reflexivity.
Qed.

(** C2 (as amended): [decrypt] does not read the private key: on every
    ciphertext any two keys give the same result, and a ciphertext produced
    by [encrypt m] (for [m] in [[0, P)]) decrypts to [m] under any private
    key, related to the encrypting key pair or not. *)
Theorem decrypt_ignores_private_key (m : Z) (pk : PublicKey) (rng : nat -> Z)
    (k1 k2 : PrivateKey) :
  0 <= m < PLAINTEXT_MODULUS ->
  (forall c, decrypt c k1 = decrypt c k2) /\
  exists c, encrypt {| val := m |} pk rng = Ok c /\
            decrypt c k2 = Ok {| val := m |}.
Proof.
  intros Hm. split; [reflexivity|].
  eexists. split; [now apply encrypt_in_range|].
  erewrite decrypt_head by reflexivity. do 2 f_equal.
  pose proof (noise_range (rng O)).
  rewrite scaling_factor_value in *.
  rewrite Z.div_add_l, (Z.div_small (rng O mod MAX_NOISE_BOUND)) by lia.
  rewrite Z.add_0_r. apply Z.mod_small. exact Hm.
Qed.

Lemma decrypt_ignores_private_key_witness :
  0 <= 42 < PLAINTEXT_MODULUS /\
  (forall c, decrypt c {| secret_data := [1; 2; 3] |} =
             decrypt c {| secret_data := [7; 7] |}) /\
  exists c, encrypt {| val := 42 |} {| key_data := [5] |} (fun i => Z.of_nat i) = Ok c /\
            decrypt c {| secret_data := [7; 7] |} = Ok {| val := 42 |}.
Proof.
  split; [unfold PLAINTEXT_MODULUS; lia|].
  apply (decrypt_ignores_private_key 42 {| key_data := [5] |} (fun i => Z.of_nat i)
           {| secret_data := [1; 2; 3] |} {| secret_data := [7; 7] |}).
  unfold PLAINTEXT_MODULUS; lia.
Defined.

(** C2 as stated fails: no ciphertext and pair of private keys make
    [decrypt] disagree, and [encrypt 42] decrypts to [42] under an
    unrelated key every time. *)
Lemma decrypt_key_dependence_counterexample :
  ~ (exists c k1 k2, decrypt c k1 <> decrypt c k2) /\
  (match encrypt {| val := 42 |} {| key_data := [5] |} (fun _ => 3) with
   | Ok c => decrypt c {| secret_data := [9; 9] |}
   | _ => Panic
   end) = Ok {| val := 42 |}.
Proof.
  split.
  - intros (c & k1 & k2 & H). apply H. reflexivity.
  - vm_compute. reflexivity.
Qed.

(** C6: [encrypt] never panics; it returns a ciphertext for every
    plaintext of [[0, P)] and fails with [EncryptionFailed] (the code's
    variant for an invalid plaintext) for every plaintext outside it, with
    the reason [NegativePlaintext] below [0] and [ExceedsModulus] from [P]
    on; no out-of-range value is reduced modulo [P]. *)
Theorem encrypt_rejects_out_of_range (v : Z) (pk : PublicKey) (rng : nat -> Z) :
  match encrypt {| val := v |} pk rng with
  | Ok _ => 0 <= v < PLAINTEXT_MODULUS
  | Err e => (v < 0 \/ PLAINTEXT_MODULUS <= v) /\
             e = EncryptionFailed (if v <? 0 then NegativePlaintext v
                                   else ExceedsModulus v PLAINTEXT_MODULUS)
  | Panic => False
  end.
Proof.
  unfold encrypt. cbn [val].
  destruct (Z.ltb_spec v 0); [split; [lia | reflexivity]|].
  rewrite Z.geb_leb. destruct (Z.leb_spec PLAINTEXT_MODULUS v).
  - split; [lia|]. reflexivity.
  - rewrite gaussian_new_ok. lia.
Qed.

(** The challenger's own [ExternalChallenger::encrypt], only called by
    [create_challenge] on plaintexts of [{0, 1, 2}], has no range check:
    [65537] is encrypted as [0]. *)
Lemma challenger_encrypt_reduces (rng : nat -> Z) :
  challenger_encrypt {| val := 65537 |} rng = challenger_encrypt {| val := 0 |} rng /\
  exists c, challenger_encrypt {| val := 65537 |} rng = Ok c.
Proof. split; [reflexivity|]. eexists. reflexivity. Qed.

(** ** The challenge *)

Lemma challenger_encrypt_ok (p : Signed) (rng : nat -> Z) :
  exists c, challenger_encrypt p rng = Ok c.
Proof. eexists. reflexivity. Qed.

Lemma challenge_loop_spec (count i : nat) (vote_rng : nat -> Z)
    (noise_rng : nat -> nat -> Z) :
  exists cs, challenge_loop i count vote_rng noise_rng =
             Some (map vote_rng (seq i count), cs) /\ length cs = count.
Proof.
  revert i; induction count as [|count IH]; intros i.
  - exists []. split; reflexivity.
  - cbn [challenge_loop].
    destruct (challenger_encrypt_ok {| val := vote_rng i |} (noise_rng i)) as [c Hc].
    rewrite Hc. destruct (IH (S i)) as (cs & Hl & Hlen). rewrite Hl.
    exists (serialize_ciphertext c :: cs). split; [reflexivity|]. simpl; lia.
Qed.

(** C3: the [ChallengeInput] that [create_challenge] builds, and that is
    handed whole to the executor, carries the sampled plaintexts in its
    [challenge_metadata.challenge_plaintexts] field, next to the
    parameters, the public key and the ciphertexts. *)
Theorem create_challenge_carries_plaintexts (self : ExternalChallenger)
    (tid : string) (num_votes : nat) (vote_rng : nat -> Z)
    (noise_rng : nat -> nat -> Z) (now : Z) :
  exists ci,
    create_challenge self tid num_votes vote_rng noise_rng now = Some ci /\
    parameters ci = challenger_parameters self /\
    challenge_public_key ci = public_key (keys self) /\
    length (challenge_ciphertexts ci) = num_votes /\
    challenge_plaintexts (challenge_metadata ci) = map vote_rng (seq 0 num_votes).
Proof.
  unfold create_challenge.
  destruct (challenge_loop_spec num_votes 0 vote_rng noise_rng) as (cs & Hl & Hlen).
  rewrite Hl. eexists. split; [reflexivity|]. cbn. auto.
Qed.

(** ** Verification of the executor's results *)

(** The log entries the decryption loop appends from index [i] on. *)
Fixpoint log_from (i : nat) (ds : list Z) : list LogEntry :=
  match ds with
  | [] => []
  | d :: ds' => ResultDecrypted (S i) d :: log_from (S i) ds'
  end.

Definition sum_Z (l : list Z) : Z := fold_right Z.add 0 l.

(** No running [i64] sum of [l], started at [acc], leaves the [i64]
    range. *)
Fixpoint sums_fit_i64 (acc : Z) (l : list Z) : Prop :=
  match l with
  | [] => True
  | x :: l' => i64_min <= acc + x <= i64_max /\ sums_fit_i64 (acc + x) l'
  end.

Lemma i64_add_fit (prof : Profile) (a b : Z) :
  i64_min <= a + b <= i64_max -> i64_add prof a b = Some (a + b).
Proof.
  intros H. unfold i64_min, i64_max in H. destruct prof; cbn [i64_add].
  - unfold i64_min, i64_max.
    replace ((- 2 ^ 63 <=? a + b) && (a + b <=? 2 ^ 63 - 1)) with true
      by (symmetry; apply andb_true_intro; split; apply Z.leb_le; lia).
    reflexivity.
  - unfold wrap_i64. rewrite Z.mod_small by lia. f_equal. lia.
Qed.

Lemma i64_sum_from_fit (prof : Profile) (acc : Z) (l : list Z) :
  sums_fit_i64 acc l -> i64_sum_from prof acc l = Some (acc + sum_Z l).
Proof.
  unfold sum_Z. revert acc; induction l as [|x l IH]; intros acc H;
    cbn [sums_fit_i64 i64_sum_from fold_right] in *.
  - f_equal. lia.
  - destruct H as [Hx Hl]. rewrite i64_add_fit by exact Hx.
    rewrite IH by exact Hl. f_equal. lia.
Qed.

Lemma sums_fit_i64_dec (acc : Z) (l : list Z) :
  {sums_fit_i64 acc l} + {~ sums_fit_i64 acc l}.
Proof.
  revert acc. induction l as [|x l IH]; intros acc; cbn [sums_fit_i64].
  - left. exact I.
  - destruct (Z_le_dec i64_min (acc + x)) as [H1|H1];
      [|right; intros [H _]; lia].
    destruct (Z_le_dec (acc + x) i64_max) as [H2|H2];
      [|right; intros [H _]; lia].
    destruct (IH (acc + x)) as [H|H]; [left; auto | right; intros [_ H']; auto].
Qed.

(** In a debug build a running sum that leaves the [i64] range panics. *)
Lemma i64_sum_from_debug_overflow (acc : Z) (l : list Z) :
  ~ sums_fit_i64 acc l -> i64_sum_from Debug acc l = None.
Proof.
  revert acc. induction l as [|x l IH]; intros acc H; cbn [sums_fit_i64 i64_sum_from] in *.
  - contradiction H. exact I.
  - unfold i64_add.
    destruct ((i64_min <=? acc + x) && (acc + x <=? i64_max)) eqn:E; [|reflexivity].
    apply andb_prop in E as [E1 E2]. apply Z.leb_le in E1, E2.
    apply IH. intros Hl. apply H. auto.
Qed.

Lemma wrap_i64_small (z : Z) : i64_min <= z <= i64_max -> wrap_i64 z = z.
Proof.
  unfold wrap_i64, i64_min, i64_max. intros H.
  rewrite Z.mod_small by lia. lia.
Qed.

Lemma wrap_i64_range (z : Z) : i64_min <= wrap_i64 z <= i64_max.
Proof.
  unfold wrap_i64, i64_min, i64_max.
  pose proof (Z.mod_pos_bound (z + 2 ^ 63) (2 ^ 64) ltac:(lia)). lia.
Qed.

Lemma wrap_i64_add_l (y r : Z) : wrap_i64 (wrap_i64 y + r) = wrap_i64 (y + r).
Proof.
  unfold wrap_i64. f_equal.
  replace ((y + 2 ^ 63) mod 2 ^ 64 - 2 ^ 63 + r + 2 ^ 63)
    with ((y + 2 ^ 63) mod 2 ^ 64 + r) by lia.
  rewrite Z.add_mod_idemp_l by lia. f_equal. lia.
Qed.

(** In a release build the running sum wraps: it ends on the exact sum
    wrapped to [i64]. *)
Lemma i64_sum_from_release (acc : Z) (l : list Z) :
  i64_min <= acc <= i64_max ->
  i64_sum_from Release acc l = Some (wrap_i64 (acc + sum_Z l)).
Proof.
  unfold sum_Z. revert acc. induction l as [|x l IH]; intros acc H;
    cbn [i64_sum_from fold_right i64_add].
  - rewrite Z.add_0_r, wrap_i64_small by exact H. reflexivity.
  - rewrite IH by apply wrap_i64_range. rewrite wrap_i64_add_l. f_equal. f_equal. lia.
Qed.

Lemma decrypt_results_all_ok (rs : list (list byte)) (ds : list Z) :
  Forall2 (fun bytes d => deserialize_and_decrypt bytes = Ok {| val := d |}) rs ds ->
  forall i ds0 log0 n,
  decrypt_results i rs ds0 log0 n =
  (Ok (ds0 ++ ds, log0 ++ log_from i ds), (n + length rs)%nat).
Proof.
  induction 1 as [|r d rs ds Hr _ IH]; intros i ds0 log0 n.
  - cbn. rewrite !app_nil_r, Nat.add_0_r. reflexivity.
  - cbn [decrypt_results]. unfold bind, call_deserialize_and_decrypt.
    rewrite Hr. cbn [val]. rewrite IH.
    rewrite <- !app_assoc. cbn [app log_from length].
    replace (S n + length rs)%nat with (n + S (length rs))%nat by lia.
    reflexivity.
Qed.

Lemma decrypt_results_no_receipt_error (rs : list (list byte)) :
  forall i ds log n,
  match fst (decrypt_results i rs ds log n) with
  | Err v => error v <> Some ReceiptValidationFailed
  | _ => True
  end.
Proof.
  induction rs as [|r rs IH]; intros i ds log n; cbn [decrypt_results].
  - exact I.
  - unfold bind, call_deserialize_and_decrypt.
    destruct (deserialize_and_decrypt r); cbn; [apply IH | discriminate | exact I].
Qed.

(** C4: whenever the receipt check rejects the receipt, the verification
    returns the failed result tagged [RECEIPT_INVALID] at once, without a
    single call to [deserialize_and_decrypt] (the call counter is
    unchanged). *)
Theorem verify_result_fail_fast (prof : Profile) (verify_receipt_fn : list byte -> bool)
    (challenge_input : ChallengeInput) (zkvm_receipt : list byte)
    (result_ciphertexts : list (list byte)) (n0 : nat) :
  verify_receipt_fn zkvm_receipt = false ->
  verify_zkvm_result_with prof verify_receipt_fn challenge_input zkvm_receipt
    result_ciphertexts n0 = (Some receipt_invalid_result, n0).
Proof.
  intros H. unfold verify_zkvm_result_with. rewrite H. reflexivity.
Qed.

Definition example_challenge (plaintexts : list Z) : ChallengeInput := {|
  parameters := default_parameters;
  challenge_public_key := {| key_data := [] |};
  challenge_ciphertexts := [];
  challenge_metadata := {|
    test_id := "example";
    challenge_plaintexts := plaintexts;
    expected_operations := ["HomomorphicAdd"; "DecryptFinalTallies"]%string;
    timestamp := 0 |} |}.

(** A serialized ciphertext whose coefficient 0 is [m * S]. *)
Definition encoded_result (m : Z) : list byte :=
  to_le_bytes (m * scaling_factor) ++ repeat x00 504.

Lemma verify_result_fail_fast_witness :
  (fun _ : list byte => false) (encoded_result 1) = false /\
  verify_zkvm_result_with Debug (fun _ => false) (example_challenge [1; 0; 0; 0; 1])
    (encoded_result 1) [encoded_result 1; encoded_result 1] O =
  (Some receipt_invalid_result, O).
Proof.
  split; [reflexivity|].
  apply (verify_result_fail_fast Debug (fun _ => false)
           (example_challenge [1; 0; 0; 0; 1]) (encoded_result 1)
           [encoded_result 1; encoded_result 1] O).
  reflexivity.
Defined.

(** C5 (as amended): when the receipt check passes and every result
    deserializes and decrypts (to [ds]), each result is decrypted once,
    and:
    - if neither the running [i64] sum of [challenge_plaintexts] nor that
      of [ds] overflows, the verification succeeds exactly when the two
      sums are equal: it returns the verified result with [ds] and the log
      of the decryptions followed by the two entries recording the check,
      and otherwise the failed result with [ds] and
      [ArithmeticMismatch { expected, actual }];
    - if one of them overflows, a debug build panics;
    - a release build compares the two sums wrapped to [i64], in the
      same way, whether they overflow or not. *)
Theorem verify_result_compares_sums (prof : Profile)
    (verify_receipt_fn : list byte -> bool) (challenge_input : ChallengeInput)
    (zkvm_receipt : list byte) (result_ciphertexts : list (list byte))
    (ds : list Z) (n0 : nat) :
  verify_receipt_fn zkvm_receipt = true ->
  Forall2 (fun bytes d => deserialize_and_decrypt bytes = Ok {| val := d |})
    result_ciphertexts ds ->
  let plaintexts := challenge_plaintexts (challenge_metadata challenge_input) in
  let outcome expected actual :=
    if expected =? actual
    then {| success := true;
            error := None;
            decrypted_results := Some ds;
            verification_log :=
              log_from 0 ds ++ [FheComputationVerified; ProofComplete] |}
    else {| success := false;
            error := Some (ArithmeticMismatch expected actual);
            decrypted_results := Some ds;
            verification_log := log_from 0 ds |} in
  let run := verify_zkvm_result_with prof verify_receipt_fn challenge_input zkvm_receipt
               result_ciphertexts n0 in
  (sums_fit_i64 0 plaintexts -> sums_fit_i64 0 ds ->
   run = (Some (outcome (sum_Z plaintexts) (sum_Z ds)),
          (n0 + length result_ciphertexts)%nat)) /\
  (prof = Debug -> ~ (sums_fit_i64 0 plaintexts /\ sums_fit_i64 0 ds) ->
   run = (None, (n0 + length result_ciphertexts)%nat)) /\
  (prof = Release ->
   run = (Some (outcome (wrap_i64 (sum_Z plaintexts)) (wrap_i64 (sum_Z ds))),
          (n0 + length result_ciphertexts)%nat)).
Proof.
  intros Hr Hds plaintexts outcome run.
  assert (Hrun : run =
    match i64_sum prof plaintexts with
    | None => (None, (n0 + length result_ciphertexts)%nat)
    | Some e =>
        match i64_sum prof ds with
        | None => (None, (n0 + length result_ciphertexts)%nat)
        | Some a => (Some (outcome e a), (n0 + length result_ciphertexts)%nat)
        end
    end).
  { subst run. unfold verify_zkvm_result_with. rewrite Hr. cbn [negb].
    unfold bind. rewrite (decrypt_results_all_ok _ _ Hds). cbn [app].
    subst plaintexts outcome.
    destruct (i64_sum prof _); [|reflexivity].
    destruct (i64_sum prof ds); [|reflexivity].
    destruct (_ =? _); reflexivity. }
  split; [|split].
  - intros Hp Hd. rewrite Hrun. unfold i64_sum.
    rewrite !i64_sum_from_fit by assumption. rewrite !Z.add_0_l. reflexivity.
  - intros -> Hnot. rewrite Hrun. unfold i64_sum.
    destruct (sums_fit_i64_dec 0 plaintexts) as [Hp|Hp].
    + rewrite (i64_sum_from_fit _ _ _ Hp).
      destruct (sums_fit_i64_dec 0 ds) as [Hd|Hd]; [exfalso; tauto|].
      rewrite (i64_sum_from_debug_overflow _ _ Hd). reflexivity.
    + rewrite (i64_sum_from_debug_overflow _ _ Hp). reflexivity.
  - intros ->. rewrite Hrun. unfold i64_sum.
    rewrite !i64_sum_from_release by (unfold i64_min, i64_max; lia).
    rewrite !Z.add_0_l. reflexivity.
Qed.

Lemma verify_result_compares_sums_witness :
  verify_receipt (encoded_result 1) = true /\
  Forall2 (fun bytes d => deserialize_and_decrypt bytes = Ok {| val := d |})
    [encoded_result 1; encoded_result 1] [1; 1] /\
  (sums_fit_i64 0 (challenge_plaintexts (challenge_metadata
                     (example_challenge [1; 0; 0; 0; 1]))) ->
   sums_fit_i64 0 [1; 1] ->
   verify_zkvm_result Debug (example_challenge [1; 0; 0; 0; 1]) (encoded_result 1)
     [encoded_result 1; encoded_result 1] O =
   (Some {| success := true;
            error := None;
            decrypted_results := Some [1; 1];
            verification_log :=
              log_from 0 [1; 1] ++ [FheComputationVerified; ProofComplete] |}, 2%nat)) /\
  (Release = Release ->
   verify_zkvm_result Release (example_challenge [i64_max; i64_max; 2]) (encoded_result 1)
     [encoded_result 1] O =
   (Some {| success := false;
            error := Some (ArithmeticMismatch (wrap_i64 (sum_Z [i64_max; i64_max; 2]))
                                              (wrap_i64 (sum_Z [1])));
            decrypted_results := Some [1];
            verification_log := log_from 0 [1] |}, 1%nat)).
Proof.
  assert (Hr : verify_receipt (encoded_result 1) = true) by reflexivity.
  assert (Hds : Forall2 (fun bytes d => deserialize_and_decrypt bytes = Ok {| val := d |})
                  [encoded_result 1; encoded_result 1] [1; 1]).
  { constructor; [vm_compute; reflexivity|].
    constructor; [vm_compute; reflexivity|]. constructor. }
  assert (Hds1 : Forall2 (fun bytes d => deserialize_and_decrypt bytes = Ok {| val := d |})
                   [encoded_result 1] [1]).
  { constructor; [vm_compute; reflexivity|]. constructor. }
  split; [exact Hr|]. split; [exact Hds|]. split.
  - exact (proj1 (verify_result_compares_sums Debug verify_receipt
             (example_challenge [1; 0; 0; 0; 1]) (encoded_result 1)
             [encoded_result 1; encoded_result 1] [1; 1] O Hr Hds)).
  - exact (proj2 (proj2 (verify_result_compares_sums Release verify_receipt
             (example_challenge [i64_max; i64_max; 2]) (encoded_result 1)
             [encoded_result 1] [1] O Hr Hds1))).
Defined.

(** C5 as stated fails when a sum leaves the [i64] range: with the
    plaintexts [[i64::MAX, i64::MAX, 2]] (sum [2^64]) and no results (sum
    [0]), a debug build panics, and a release build, whose sum wraps to
    [0], reports success although the sums differ. *)
Lemma verify_result_overflow_counterexample :
  sum_Z [i64_max; i64_max; 2] <> sum_Z [] /\
  fst (verify_zkvm_result Debug (example_challenge [i64_max; i64_max; 2]) [] [] O)
    = None /\
  fst (verify_zkvm_result Release (example_challenge [i64_max; i64_max; 2]) [] [] O)
    = Some {| success := true;
              error := None;
              decrypted_results := Some [];
              verification_log := [FheComputationVerified; ProofComplete] |}.
Proof.
  split; [vm_compute; discriminate|].
  split; vm_compute; reflexivity.
Qed.

(** C10: [ExternalChallenger::verify_receipt] accepts every receipt, so
    [verify_zkvm_result] never returns the failure tagged as an invalid
    receipt, whatever its inputs. *)
Theorem verify_receipt_accepts_all :
  (forall zkvm_receipt, verify_receipt zkvm_receipt = true) /\
  (forall prof challenge_input zkvm_receipt result_ciphertexts n0,
     match fst (verify_zkvm_result prof challenge_input zkvm_receipt
                  result_ciphertexts n0) with
     | Some v => v <> receipt_invalid_result /\
                 error v <> Some ReceiptValidationFailed
     | None => True
     end).
Proof.
  split; [reflexivity|].
  intros prof ch r rs n0.
  unfold verify_zkvm_result, verify_zkvm_result_with, verify_receipt. cbn [negb].
  unfold bind.
  pose proof (decrypt_results_no_receipt_error rs 0 [] [] n0) as H.
  destruct (decrypt_results 0 rs [] [] n0) as [[[ds log]|v|] n1]; cbn in H |- *.
  - destruct (i64_sum prof (challenge_plaintexts (challenge_metadata ch))); cbn; [|exact I].
    destruct (i64_sum prof ds); cbn; [|exact I].
    destruct (_ =? _); cbn; split; discriminate.
  - split; [|exact H]. intros ->. apply H. reflexivity.
  - exact I.
Qed.

(** * Further properties of the runtime, the guest and the protocol *)

(** ** Helpers *)

Lemma from_le_bytes_range (bs : list byte) :
  0 <= from_le_bytes bs < 2 ^ (8 * Z.of_nat (length bs)).
Proof.
  induction bs as [|b bs IH]; cbn [from_le_bytes length]; [lia|].
  pose proof (Z_of_byte_range b).
  rewrite Nat2Z.inj_succ, Z.mul_succ_r, Z.pow_add_r by lia.
  change (2 ^ 8) with 256. nia.
Qed.

Lemma set_nth_none (i : nat) (x : Z) (l : list Z) :
  (length l <= i)%nat -> set_nth i x l = None.
Proof.
  revert i; induction l as [|y l IH]; intros i Hi; [destruct i; reflexivity|].
  destruct i as [|i]; cbn in Hi; [lia|]. cbn [set_nth]. rewrite IH by lia. reflexivity.
Qed.

Lemma add_loop_firstn (xs ys : list Z) (i : nat) (res : list Z) :
  let m := Nat.min (length xs) (length ys) in
  add_loop i xs ys res = add_loop i (firstn m xs) (firstn m ys) res.
Proof.
  revert ys i res; induction xs as [|a xs IH]; intros ys i res; [reflexivity|].
  destruct ys as [|b ys]; [reflexivity|].
  cbn [length Nat.min firstn add_loop].
  destruct (set_nth i (add_coeff a b) res); [apply IH | reflexivity].
Qed.

Lemma add_loop_none (xs ys : list Z) (i : nat) (res : list Z) :
  (i <= length res < i + Nat.min (length xs) (length ys))%nat ->
  add_loop i xs ys res = None.
Proof.
  revert ys i res; induction xs as [|a xs IH]; intros ys i res H.
  - cbn in H. lia.
  - destruct ys as [|b ys]; [cbn in H; lia|].
    cbn [length Nat.min add_loop] in *.
    destruct (Nat.lt_ge_cases i (length res)) as [Hi|Hi].
    + destruct (set_nth_spec i (add_coeff a b) res Hi) as (r & Hs & Hl & _).
      rewrite Hs. apply IH. lia.
    + rewrite set_nth_none by exact Hi. reflexivity.
Qed.

(** The shape of [a + b] on ciphertexts whose shorter side has at most
    [2n] coefficients. *)
Lemma cipher_add_some (c1 c2 : Cipher) :
  let m := Nat.min (length (ciphertext_data c1)) (length (ciphertext_data c2)) in
  (m <= 2 * POLYNOMIAL_DEGREE)%nat ->
  exists c, cipher_add c1 c2 = Some c /\
    length (ciphertext_data c) = (2 * POLYNOMIAL_DEGREE)%nat /\
    forall j, nth j (ciphertext_data c) 0 =
              if (j <? m)%nat
              then add_coeff (nth j (ciphertext_data c1) 0) (nth j (ciphertext_data c2) 0)
              else 0.
Proof.
  intros m Hm. destruct c1 as [xs], c2 as [ys]. cbn [ciphertext_data] in *.
  unfold cipher_add. cbn [ciphertext_data]. rewrite add_loop_firstn. fold m.
  destruct (add_loop_spec (firstn m xs) (firstn m ys)
              ltac:(rewrite !length_firstn; lia) 0 (repeat 0 (POLYNOMIAL_DEGREE * 2))
              ltac:(rewrite length_firstn, repeat_length; cbn in Hm |- *; lia))
    as (res & Ha & Hl & Ho & Hk).
  rewrite Ha. eexists. split; [reflexivity|]. cbn [ciphertext_data].
  rewrite Hl, repeat_length. split; [reflexivity|].
  rewrite length_firstn in Ho, Hk. replace (Nat.min m (length xs)) with m in Ho, Hk by lia.
  intros j. destruct (Nat.ltb_spec j m) as [Hj|Hj].
  - pose proof (Hk j Hj) as Hkj. cbn [Nat.add] in Hkj. rewrite Hkj, !nth_firstn. apply Nat.ltb_lt in Hj. rewrite Hj. reflexivity.
  - rewrite Ho by lia.
    destruct (Nat.lt_ge_cases j (POLYNOMIAL_DEGREE * 2)).
    + apply nth_repeat_lt. assumption.
    + apply nth_overflow. rewrite repeat_length. assumption.
Qed.

Lemma decode_words_u64 (data : list byte) (i count : nat) :
  Forall is_u64 (map (fun j => from_le_bytes (firstn 8 (skipn (j * 8) data))) (seq i count)).
Proof.
  apply Forall_forall. intros x Hx. apply in_map_iff in Hx as (j & <- & _).
  pose proof (from_le_bytes_range (firstn 8 (skipn (j * 8) data))) as H.
  rewrite length_firstn in H. unfold is_u64. split; [lia|].
  eapply Z.lt_le_trans; [apply H|]. apply Z.pow_le_mono_r; lia.
Qed.

(** A buffer of [16n] bytes always deserializes, to [2n] [u64] words. *)
Lemma deserialize_full (data : list byte) :
  length data = (16 * POLYNOMIAL_DEGREE)%nat ->
  exists c, deserialize_ciphertext data = Ok c /\
    length (ciphertext_data c) = (2 * POLYNOMIAL_DEGREE)%nat /\
    Forall is_u64 (ciphertext_data c) /\
    ciphertext_data c =
      map (fun j => from_le_bytes (firstn 8 (skipn (j * 8) data))) (seq 0 (2 * POLYNOMIAL_DEGREE)).
Proof.
  intros Hlen. unfold deserialize_ciphertext.
  change (POLYNOMIAL_DEGREE * 2 * 8)%nat with (16 * POLYNOMIAL_DEGREE)%nat.
  rewrite Hlen, Nat.eqb_refl. cbn [negb].
  rewrite decode_words_spec by (rewrite Hlen; cbv; lia).
  eexists. split; [reflexivity|]. cbn [ciphertext_data].
  split; [rewrite length_map, length_seq; reflexivity|].
  split; [apply decode_words_u64 | reflexivity].
Qed.

Lemma deserialize_wrong_length (data : list byte) :
  length data <> (16 * POLYNOMIAL_DEGREE)%nat ->
  deserialize_ciphertext data =
  Err (InvalidCiphertextLength (16 * POLYNOMIAL_DEGREE) (length data)).
Proof.
  intros H. unfold deserialize_ciphertext.
  change (POLYNOMIAL_DEGREE * 2 * 8)%nat with (16 * POLYNOMIAL_DEGREE)%nat.
  apply Nat.eqb_neq in H. rewrite H. reflexivity.
Qed.

(** ** Runtime *)

(** [deserialize_ciphertext] never panics and never reports
    [InvalidByteSlice]: it succeeds exactly on buffers of [16n] bytes, with
    [2n] [u64] words. *)
Theorem deserialize_ok_iff_length (data : list byte) :
  deserialize_ciphertext data <> Panic /\
  deserialize_ciphertext data <> Err InvalidByteSlice /\
  ((exists c, deserialize_ciphertext data = Ok c) <->
   length data = (16 * POLYNOMIAL_DEGREE)%nat) /\
  (forall c, deserialize_ciphertext data = Ok c ->
   length (ciphertext_data c) = (2 * POLYNOMIAL_DEGREE)%nat /\
   Forall is_u64 (ciphertext_data c)).
Proof.
  destruct (Nat.eq_dec (length data) (16 * POLYNOMIAL_DEGREE)) as [H|H].
  - destruct (deserialize_full data H) as (c & Hc & Hl & Hu & _). rewrite Hc.
    split; [discriminate|]. split; [discriminate|]. split.
    + split; [intros _; exact H | intros _; eauto].
    + intros c' Hc'. injection Hc' as <-. auto.
  - rewrite (deserialize_wrong_length data H).
    split; [discriminate|]. split; [discriminate|]. split.
    + split; [intros (c & Hc); discriminate | intros Hl; contradiction].
    + intros c Hc. discriminate.
Qed.

(** [decrypt] never fails with an error: it panics exactly on an empty
    ciphertext, and otherwise returns a value in [[0, P)]. *)
Theorem decrypt_total_range (c : Cipher) (sk : PrivateKey) :
  (decrypt c sk = Panic <-> ciphertext_data c = []) /\
  (forall e, decrypt c sk <> Err e) /\
  (forall p, decrypt c sk = Ok p -> 0 <= val p < PLAINTEXT_MODULUS).
Proof.
  unfold decrypt. destruct (ciphertext_data c) as [|x rest].
  - split; [split; reflexivity|]. split; [discriminate|]. discriminate.
  - split; [split; discriminate|]. split; [discriminate|].
    intros p Hp. injection Hp as <-. cbn [val]. apply Z.mod_pos_bound. reflexivity.
Qed.

(** [a + b] on ciphertexts panics exactly when both have more than [2n]
    coefficients; otherwise the result has [2n] coefficients, the first
    [min(len a, len b)] being the sums modulo [Q] and the others [0]. *)
Theorem cipher_add_shape (c1 c2 : Cipher) :
  let m := Nat.min (length (ciphertext_data c1)) (length (ciphertext_data c2)) in
  (cipher_add c1 c2 = None <-> (2 * POLYNOMIAL_DEGREE < m)%nat) /\
  (forall c, cipher_add c1 c2 = Some c ->
     length (ciphertext_data c) = (2 * POLYNOMIAL_DEGREE)%nat /\
     forall j, nth j (ciphertext_data c) 0 =
               if (j <? m)%nat
               then (nth j (ciphertext_data c1) 0 + nth j (ciphertext_data c2) 0)
                    mod CIPHERTEXT_MODULUS
               else 0).
Proof.
  intros m. destruct (Nat.le_gt_cases m (2 * POLYNOMIAL_DEGREE)) as [Hm|Hm].
  - destruct (cipher_add_some c1 c2 Hm) as (c & Hc & Hl & Hn). fold m in Hn. rewrite Hc.
    split; [split; [discriminate | lia]|].
    intros c' Hc'. injection Hc' as <-. split; [exact Hl|].
    intros j. rewrite Hn. destruct (j <? m)%nat; [apply add_coeff_spec | reflexivity].
  - assert (Hn : cipher_add c1 c2 = None).
    { unfold cipher_add. rewrite add_loop_none; [reflexivity|].
      split; [lia|].
      rewrite repeat_length. cbn in Hm |- *. fold m. lia. }
    rewrite Hn. split; [split; [intros _; exact Hm | reflexivity]|].
    intros c Hc. discriminate.
Qed.

Lemma deserialize_serialize_mod (ws : list Z) :
  length ws = (2 * POLYNOMIAL_DEGREE)%nat ->
  deserialize_ciphertext (flat_map to_le_bytes ws) =
  Ok {| ciphertext_data := map (fun w => w mod 2 ^ 64) ws |}.
Proof.
  intros Hlen.
  assert (Hl : length (flat_map to_le_bytes ws) = (16 * POLYNOMIAL_DEGREE)%nat)
    by (rewrite flat_map_to_le_bytes_length, Hlen; reflexivity).
  destruct (deserialize_full _ Hl) as (c & Hc & _ & _ & Hd). rewrite Hc.
  destruct c as [cs]. cbn [ciphertext_data] in Hd. subst cs.
  rewrite <- Hlen.
  pose proof (decode_flat_map ws [] 0 eq_refl) as H. cbn [app] in H. rewrite H.
  reflexivity.
Qed.

Lemma deserialize_and_decrypt_serialize_mod (w0 : Z) (ws : list Z) :
  length (w0 :: ws) = (2 * POLYNOMIAL_DEGREE)%nat ->
  deserialize_and_decrypt (flat_map to_le_bytes (w0 :: ws)) =
  Ok {| val := (w0 mod 2 ^ 64 / scaling_factor) mod PLAINTEXT_MODULUS |}.
Proof.
  intros Hlen.
  assert (Hl : length (flat_map to_le_bytes (w0 :: ws)) = (16 * POLYNOMIAL_DEGREE)%nat)
    by (rewrite flat_map_to_le_bytes_length, Hlen; reflexivity).
  unfold deserialize_and_decrypt.
  change (POLYNOMIAL_DEGREE * 2 * 8)%nat with (16 * POLYNOMIAL_DEGREE)%nat.
  rewrite Hl, Nat.eqb_refl. cbn [negb].
  rewrite decode_words_spec by (rewrite Hl; cbv; lia).
  change (POLYNOMIAL_DEGREE * 2)%nat with (2 * POLYNOMIAL_DEGREE)%nat.
  rewrite <- Hlen.
  pose proof (decode_flat_map (w0 :: ws) [] 0 eq_refl) as H. cbn [app] in H. rewrite H.
  reflexivity.
Qed.

(** A fresh encryption of [m] in [[0, P)] (by either side) decrypts to
    [m]: coefficient 0 is [m * S + e] with [e < 4096 < S]. *)
Lemma fresh_head_decrypts (m e : Z) :
  0 <= m < PLAINTEXT_MODULUS -> 0 <= e < MAX_NOISE_BOUND ->
  ((m * scaling_factor + e) mod 2 ^ 64 / scaling_factor) mod PLAINTEXT_MODULUS = m.
Proof.
  intros Hm He. rewrite scaling_factor_value. unfold MAX_NOISE_BOUND, PLAINTEXT_MODULUS in *.
  change (65537 / 16) with 4096 in He.
  rewrite (Z.mod_small (m * 4397979403263 + e) (2 ^ 64)) by lia.
  rewrite <- (Z.div_unique_pos (m * 4397979403263 + e) 4397979403263 m e) by lia.
  apply Z.mod_small. lia.
Qed.

Lemma challenger_encrypt_in_range (m : Z) (rng : nat -> Z) :
  0 <= m < PLAINTEXT_MODULUS ->
  challenger_encrypt {| val := m |} rng =
  Ok {| ciphertext_data :=
          (m * scaling_factor + rng O mod MAX_NOISE_BOUND)
          :: map (fun i => rng i mod CIPHERTEXT_MODULUS)
                 (seq 1 (POLYNOMIAL_DEGREE * 2 - 1)) |}.
Proof.
  intros Hm. unfold challenger_encrypt. cbn [val].
  rewrite gaussian_new_ok.
  rewrite (Z.mod_small m (2 ^ 64)) by (unfold PLAINTEXT_MODULUS in Hm; lia).
  rewrite (Z.mod_small m PLAINTEXT_MODULUS) by lia.
  do 3 f_equal.
  pose proof (noise_range (rng O)). unfold MAX_NOISE_BOUND in *.
  unfold PLAINTEXT_MODULUS in *.
  apply Z.mod_small. rewrite scaling_factor_value. unfold CIPHERTEXT_MODULUS. lia.
Qed.

(** Log entries of a prefix of the results. *)
Lemma log_from_app (i : nat) (ds1 ds2 : list Z) :
  log_from i (ds1 ++ ds2) = log_from i ds1 ++ log_from (i + length ds1) ds2.
Proof.
  revert i; induction ds1 as [|d ds1 IH]; intros i; cbn [app log_from length].
  - now rewrite Nat.add_0_r.
  - rewrite IH. now replace (S i + length ds1)%nat with (i + S (length ds1))%nat by lia.
Qed.

Lemma decrypt_results_app (rs1 rs2 : list (list byte)) (ds : list Z) :
  Forall2 (fun bytes d => deserialize_and_decrypt bytes = Ok {| val := d |}) rs1 ds ->
  forall i ds0 log0 n,
  decrypt_results i (rs1 ++ rs2) ds0 log0 n =
  decrypt_results (i + length rs1) rs2 (ds0 ++ ds) (log0 ++ log_from i ds)
    (n + length rs1)%nat.
Proof.
  induction 1 as [|r d rs ds Hr _ IH]; intros i ds0 log0 n.
  - cbn [app length log_from]. rewrite !app_nil_r, !Nat.add_0_r. reflexivity.
  - cbn [app decrypt_results]. unfold bind, call_deserialize_and_decrypt.
    rewrite Hr. cbn [val]. rewrite IH.
    rewrite <- !app_assoc. cbn [app log_from length].
    replace (S i + length rs)%nat with (i + S (length rs))%nat by lia.
    replace (S n + length rs)%nat with (n + S (length rs))%nat by lia.
    reflexivity.
Qed.

(** Running sums of small non-negative values stay in the [i64] range. *)
Lemma sums_fit_bounded (b : Z) (l : list Z) :
  0 <= b -> Forall (fun x => 0 <= x <= b) l ->
  forall acc, 0 <= acc -> acc + Z.of_nat (length l) * b <= i64_max ->
  sums_fit_i64 acc l.
Proof.
  intros Hb. induction 1 as [|x l Hx _ IH]; intros acc Hacc Hs; cbn [sums_fit_i64]; [exact I|].
  cbn [length] in Hs. rewrite Nat2Z.inj_succ in Hs. unfold i64_min, i64_max in *.
  split; [lia|]. apply IH; unfold i64_max; nia.
Qed.

(** ** Challenger *)

(** The challenger's private [deserialize_and_decrypt] agrees with the
    guest runtime: on every buffer, [deserialize_ciphertext] either
    succeeds and [decrypt] of its result equals
    [deserialize_and_decrypt] (whatever the private key), or fails on the
    length, with the same numbers in the challenger's message. *)
Theorem challenger_decrypt_matches_guest (data : list byte) (sk : PrivateKey) :
  match deserialize_ciphertext data with
  | Ok c => decrypt c sk <> Panic /\
            (forall r, decrypt c sk = Ok r <-> deserialize_and_decrypt data = Ok r)
  | Err (InvalidCiphertextLength e a) =>
      deserialize_and_decrypt data = Err (InvalidCiphertextLengthMsg e a)
  | _ => False
  end.
Proof.
  destruct (Nat.eq_dec (length data) (16 * POLYNOMIAL_DEGREE)) as [H|H].
  - destruct (deserialize_full data H) as (c & Hc & Hl & _ & Hd). rewrite Hc.
    assert (Hdd : deserialize_and_decrypt data =
                  match ciphertext_data c with
                  | [] => Panic
                  | x :: _ => Ok {| val := (x / scaling_factor) mod PLAINTEXT_MODULUS |}
                  end).
    { unfold deserialize_and_decrypt.
      change (POLYNOMIAL_DEGREE * 2 * 8)%nat with (16 * POLYNOMIAL_DEGREE)%nat.
      rewrite H, Nat.eqb_refl. cbn [negb].
      rewrite decode_words_spec by (rewrite H; cbv; lia).
      change (POLYNOMIAL_DEGREE * 2)%nat with (2 * POLYNOMIAL_DEGREE)%nat.
      rewrite <- Hd. reflexivity. }
    rewrite Hdd. unfold decrypt.
    destruct (ciphertext_data c); [discriminate Hl|]. split; [discriminate|].
    intros r. split; intros Hr; injection Hr as <-; reflexivity.
  - rewrite (deserialize_wrong_length data H).
    unfold deserialize_and_decrypt.
    change (POLYNOMIAL_DEGREE * 2 * 8)%nat with (16 * POLYNOMIAL_DEGREE)%nat.
    apply Nat.eqb_neq in H. rewrite H. reflexivity.
Qed.

(** On plaintexts of [[0, P)] the challenger's private [encrypt] computes
    the same ciphertext as the guest's [encrypt] from the same noise. *)
Theorem challenger_encrypt_matches_guest (m : Z) (pk : PublicKey) (rng : nat -> Z) :
  0 <= m < PLAINTEXT_MODULUS ->
  exists c, challenger_encrypt {| val := m |} rng = Ok c /\
            encrypt {| val := m |} pk rng = Ok c.
Proof.
  intros Hm. rewrite challenger_encrypt_in_range, encrypt_in_range by exact Hm.
  eexists. split; reflexivity.
Qed.

Lemma challenger_encrypt_matches_guest_witness :
  (0 <= 2 < PLAINTEXT_MODULUS) /\
  exists c, challenger_encrypt {| val := 2 |} (fun i => Z.of_nat i * 7919) = Ok c /\
            encrypt {| val := 2 |} {| key_data := [] |} (fun i => Z.of_nat i * 7919) = Ok c.
Proof.
  assert (H : 0 <= 2 < PLAINTEXT_MODULUS) by (unfold PLAINTEXT_MODULUS; lia).
  split; [exact H|].
  exact (challenger_encrypt_matches_guest 2 {| key_data := [] |} (fun i => Z.of_nat i * 7919) H).
Defined.

Lemma challenge_loop_decrypts (count i : nat) (vote_rng : nat -> Z)
    (noise_rng : nat -> nat -> Z) :
  (forall j, (i <= j < i + count)%nat -> 0 <= vote_rng j < PLAINTEXT_MODULUS) ->
  exists ps cs, challenge_loop i count vote_rng noise_rng = Some (ps, cs) /\
    Forall2 (fun bytes m => length bytes = (16 * POLYNOMIAL_DEGREE)%nat /\
                            deserialize_and_decrypt bytes = Ok {| val := m |}) cs ps.
Proof.
  revert i; induction count as [|count IH]; intros i Hr.
  - exists [], []. split; [reflexivity | constructor].
  - cbn [challenge_loop].
    assert (Hm : 0 <= vote_rng i < PLAINTEXT_MODULUS) by (apply Hr; lia).
    rewrite (challenger_encrypt_in_range _ _ Hm).
    destruct (IH (S i)) as (ps & cs & Hl & Hf); [intros j Hj; apply Hr; lia|].
    rewrite Hl. do 2 eexists. split; [reflexivity|]. constructor; [|exact Hf].
    unfold serialize_ciphertext. cbn [ciphertext_data]. split.
    + rewrite flat_map_to_le_bytes_length. cbn [length]. rewrite length_map, length_seq.
      reflexivity.
    + rewrite deserialize_and_decrypt_serialize_mod
        by (cbn [length]; rewrite length_map, length_seq; reflexivity).
      rewrite fresh_head_decrypts; [reflexivity | exact Hm |].
      apply Z.mod_pos_bound. reflexivity.
Qed.

(** Every ciphertext of a challenge whose sampled plaintexts lie in
    [[0, P)] is a buffer of [16n] bytes that [deserialize_and_decrypt]
    turns back into its plaintext, in order; the expected operations are
    [HomomorphicAdd] and [DecryptFinalTallies]. *)
Theorem create_challenge_ciphertexts_decrypt (self : ExternalChallenger)
    (tid : string) (num_votes : nat) (vote_rng : nat -> Z)
    (noise_rng : nat -> nat -> Z) (now : Z) :
  (forall j, (j < num_votes)%nat -> 0 <= vote_rng j < PLAINTEXT_MODULUS) ->
  exists ci,
    create_challenge self tid num_votes vote_rng noise_rng now = Some ci /\
    Forall2 (fun bytes m => length bytes = (16 * POLYNOMIAL_DEGREE)%nat /\
                            deserialize_and_decrypt bytes = Ok {| val := m |})
      (challenge_ciphertexts ci) (challenge_plaintexts (challenge_metadata ci)) /\
    expected_operations (challenge_metadata ci) =
      ["HomomorphicAdd"; "DecryptFinalTallies"]%string.
Proof.
  intros Hr. unfold create_challenge.
  destruct (challenge_loop_decrypts num_votes 0 vote_rng noise_rng) as (ps & cs & Hl & Hf);
    [intros j Hj; apply Hr; lia|].
  rewrite Hl. eexists. split; [reflexivity|]. split; [exact Hf | reflexivity].
Qed.

Lemma create_challenge_ciphertexts_decrypt_witness :
  let ch := {| keys := {| public_key := {| key_data := [] |};
                          private_key := {| secret_data := [] |} |};
               challenger_parameters := default_parameters |} in
  (forall j, (j < 2)%nat -> 0 <= (fun i => Z.of_nat i) j < PLAINTEXT_MODULUS) /\
  exists ci,
    create_challenge ch "t" 2 (fun i => Z.of_nat i) (fun _ _ => 5) 0 = Some ci /\
    Forall2 (fun bytes m => length bytes = (16 * POLYNOMIAL_DEGREE)%nat /\
                            deserialize_and_decrypt bytes = Ok {| val := m |})
      (challenge_ciphertexts ci) (challenge_plaintexts (challenge_metadata ci)) /\
    expected_operations (challenge_metadata ci) =
      ["HomomorphicAdd"; "DecryptFinalTallies"]%string.
Proof.
  intros ch.
  assert (H : forall j, (j < 2)%nat -> 0 <= (fun i => Z.of_nat i) j < PLAINTEXT_MODULUS)
    by (intros j Hj; unfold PLAINTEXT_MODULUS; lia).
  split; [exact H|].
  exact (create_challenge_ciphertexts_decrypt ch "t" 2 (fun i => Z.of_nat i)
           (fun _ _ => 5) 0 H).
Defined.

(** When the first [k] results decrypt (to [ds]) and result [k + 1]
    fails with [e], the verification stops there: it reports
    [DecryptionFailedFor (k + 1) e] with no decrypted results and the log
    of the [k] decryptions, and the results after it are never
    decrypted ([k + 1] calls). *)
Theorem verify_result_decryption_failure (prof : Profile)
    (challenge_input : ChallengeInput) (zkvm_receipt : list byte)
    (ok_results : list (list byte)) (ds : list Z) (bad : list byte)
    (e : ChallengerError) (rest : list (list byte)) (n0 : nat) :
  Forall2 (fun bytes d => deserialize_and_decrypt bytes = Ok {| val := d |}) ok_results ds ->
  deserialize_and_decrypt bad = Err e ->
  verify_zkvm_result prof challenge_input zkvm_receipt (ok_results ++ bad :: rest) n0 =
  (Some {| success := false;
           error := Some (DecryptionFailedFor (S (length ok_results)) e);
           decrypted_results := None;
           verification_log := log_from 0 ds |},
   (n0 + S (length ok_results))%nat).
Proof.
  intros Hok Hbad.
  unfold verify_zkvm_result, verify_zkvm_result_with, verify_receipt. cbn [negb].
  unfold bind. rewrite (decrypt_results_app _ _ _ Hok). cbn [decrypt_results app].
  unfold bind, call_deserialize_and_decrypt. rewrite Hbad. cbn.
  unfold ret. rewrite Nat.add_succ_r. reflexivity.
Qed.

Lemma verify_result_decryption_failure_witness :
  Forall2 (fun bytes d => deserialize_and_decrypt bytes = Ok {| val := d |})
    [encoded_result 2] [2] /\
  deserialize_and_decrypt [x00] = Err (InvalidCiphertextLengthMsg 512 1) /\
  verify_zkvm_result Debug (example_challenge [2]) [] ([encoded_result 2] ++ [x00] :: [[]]) O =
  (Some {| success := false;
           error := Some (DecryptionFailedFor 2 (InvalidCiphertextLengthMsg 512 1));
           decrypted_results := None;
           verification_log := log_from 0 [2] |}, 2%nat).
Proof.
  assert (H1 : Forall2 (fun bytes d => deserialize_and_decrypt bytes = Ok {| val := d |})
                 [encoded_result 2] [2])
    by (constructor; [vm_compute; reflexivity | constructor]).
  assert (H2 : deserialize_and_decrypt [x00] = Err (InvalidCiphertextLengthMsg 512 1))
    by reflexivity.
  split; [exact H1|]. split; [exact H2|].
  exact (verify_result_decryption_failure Debug (example_challenge [2]) []
           [encoded_result 2] [2] [x00] (InvalidCiphertextLengthMsg 512 1) [[]] O H1 H2).
Defined.

(** Sending the challenge ciphertexts back unchanged passes the
    verification: when the sampled plaintexts lie in [[0, P)] and their
    count times [P] fits in an [i64], [verify_zkvm_result] on the
    challenge's own ciphertexts succeeds with the plaintexts as the
    decrypted results, without any homomorphic addition taking place. *)
Theorem verify_accepts_echoed_challenge (prof : Profile) (self : ExternalChallenger)
    (tid : string) (num_votes : nat) (vote_rng : nat -> Z)
    (noise_rng : nat -> nat -> Z) (now : Z) (zkvm_receipt : list byte) (n0 : nat) :
  (forall j, (j < num_votes)%nat -> 0 <= vote_rng j < PLAINTEXT_MODULUS) ->
  Z.of_nat num_votes * PLAINTEXT_MODULUS <= i64_max ->
  exists ci,
    create_challenge self tid num_votes vote_rng noise_rng now = Some ci /\
    verify_zkvm_result prof ci zkvm_receipt (challenge_ciphertexts ci) n0 =
    (Some {| success := true;
             error := None;
             decrypted_results := Some (challenge_plaintexts (challenge_metadata ci));
             verification_log :=
               log_from 0 (challenge_plaintexts (challenge_metadata ci))
               ++ [FheComputationVerified; ProofComplete] |},
     (n0 + num_votes)%nat).
Proof.
  intros Hr Hn. unfold create_challenge.
  destruct (challenge_loop_decrypts num_votes 0 vote_rng noise_rng) as (ps & cs & Hl & Hf);
    [intros j Hj; apply Hr; lia|].
  destruct (challenge_loop_spec num_votes 0 vote_rng noise_rng) as (cs' & Hl' & Hlen).
  rewrite Hl in Hl'. injection Hl' as Hps Hcs. subst cs'.
  rewrite Hl. eexists. split; [reflexivity|]. cbn [challenge_ciphertexts challenge_plaintexts challenge_metadata].
  assert (Hds : Forall2 (fun bytes d => deserialize_and_decrypt bytes = Ok {| val := d |}) cs ps).
  { clear -Hf. induction Hf as [|b m cs ps [_ Hb] _ IH]; constructor; assumption. }
  assert (Hfit : sums_fit_i64 0 ps).
  { apply (sums_fit_bounded PLAINTEXT_MODULUS); [unfold PLAINTEXT_MODULUS; lia| |lia|].
    - subst ps. apply Forall_forall. intros x Hx. apply in_map_iff in Hx as (j & <- & Hj).
      apply in_seq in Hj. specialize (Hr j ltac:(lia)). lia.
    - subst ps. rewrite length_map, length_seq. lia. }
  unfold verify_zkvm_result, verify_zkvm_result_with, verify_receipt. cbn [negb].
  unfold bind. rewrite (decrypt_results_all_ok _ _ Hds). cbn [app].
  unfold i64_sum. rewrite !i64_sum_from_fit by exact Hfit.
  rewrite Z.eqb_refl, Hlen. reflexivity.
Qed.

Lemma verify_accepts_echoed_challenge_witness :
  let ch := {| keys := {| public_key := {| key_data := [] |};
                          private_key := {| secret_data := [] |} |};
               challenger_parameters := default_parameters |} in
  (forall j, (j < 3)%nat -> 0 <= (fun i => Z.of_nat i) j < PLAINTEXT_MODULUS) /\
  Z.of_nat 3 * PLAINTEXT_MODULUS <= i64_max /\
  exists ci,
    create_challenge ch "t" 3 (fun i => Z.of_nat i) (fun _ _ => 9) 0 = Some ci /\
    verify_zkvm_result Debug ci [] (challenge_ciphertexts ci) O =
    (Some {| success := true;
             error := None;
             decrypted_results := Some (challenge_plaintexts (challenge_metadata ci));
             verification_log :=
               log_from 0 (challenge_plaintexts (challenge_metadata ci))
               ++ [FheComputationVerified; ProofComplete] |},
     (O + 3)%nat).
Proof.
  intros ch.
  assert (H1 : forall j, (j < 3)%nat -> 0 <= (fun i => Z.of_nat i) j < PLAINTEXT_MODULUS)
    by (intros j Hj; unfold PLAINTEXT_MODULUS; lia).
  assert (H2 : Z.of_nat 3 * PLAINTEXT_MODULUS <= i64_max)
    by (unfold PLAINTEXT_MODULUS, i64_max; lia).
  split; [exact H1|]. split; [exact H2|].
  exact (verify_accepts_echoed_challenge Debug ch "t" 3 (fun i => Z.of_nat i)
           (fun _ _ => 9) 0 [] O H1 H2).
Defined.

(** ** The demonstration protocol *)

Lemma firstn_plus {A : Type} (a b : nat) (l : list A) :
  firstn (a + b) l = firstn a l ++ firstn b (skipn a l).
Proof.
  revert l; induction a as [|a IH]; intros l; [reflexivity|].
  destruct l as [|x l]; cbn [Nat.add firstn skipn app].
  - now rewrite firstn_nil.
  - now rewrite IH.
Qed.

Lemma firstn_repeat_le {A : Type} (x : A) (m k : nat) :
  (m <= k)%nat -> firstn m (repeat x k) = repeat x m.
Proof.
  revert k; induction m as [|m IH]; intros k H; [reflexivity|].
  destruct k as [|k]; [lia|]. cbn. now rewrite IH by lia.
Qed.

Lemma skipn_repeat' {A : Type} (x : A) (m k : nat) :
  skipn m (repeat x k) = repeat x (k - m).
Proof.
  revert k; induction m as [|m IH]; intros k; [now rewrite Nat.sub_0_r|].
  destruct k as [|k]; [reflexivity|]. cbn. apply IH.
Qed.

Lemma extract_result_ciphertexts_eq (j : list byte) :
  Protocol.extract_result_ciphertexts j =
  map (fun i => firstn 512 (skipn (i * 512) j)) (seq 0 (length j / 512)).
Proof.
  unfold Protocol.extract_result_ciphertexts. change (32 * 2 * 8)%nat with 512%nat.
  apply map_ext_in. intros i Hi. apply in_seq in Hi.
  unfold slice.
  assert (Hb : (i * 512 + 512 <= length j)%nat).
  { pose proof (Nat.Div0.mul_div_le (length j) 512). nia. }
  replace ((i * 512 <=? i * 512 + 512)%nat && (i * 512 + 512 <=? length j)%nat) with true
    by (symmetry; apply andb_true_intro; split; apply Nat.leb_le; lia).
  f_equal. lia.
Qed.

Lemma concat_blocks (j : list byte) (k s : nat) :
  ((s + k) * 512 <= length j)%nat ->
  concat (map (fun i => firstn 512 (skipn (i * 512) j)) (seq s k)) =
  firstn (512 * k) (skipn (s * 512) j).
Proof.
  revert s; induction k as [|k IH]; intros s H; [reflexivity|].
  cbn [seq map concat]. rewrite IH by lia.
  replace (512 * S k)%nat with (512 + 512 * k)%nat by lia.
  rewrite firstn_plus, skipn_skipn.
  now replace (512 + s * 512)%nat with (S s * 512)%nat by lia.
Qed.

(** [extract_result_ciphertexts] cuts the journal into
    [len / (32 * 2 * 8)] blocks of [32 * 2 * 8] bytes, in order: their
    concatenation is the journal without its trailing partial block, and
    the [unwrap_or] fallback is never used. *)
Theorem extract_result_ciphertexts_blocks (j : list byte) :
  let k := (length j / 512)%nat in
  length (Protocol.extract_result_ciphertexts j) = k /\
  Forall (fun b => length b = 512%nat) (Protocol.extract_result_ciphertexts j) /\
  concat (Protocol.extract_result_ciphertexts j) = firstn (512 * k) j.
Proof.
  intros k. rewrite extract_result_ciphertexts_eq. fold k.
  pose proof (Nat.Div0.mul_div_le (length j) 512) as Hk. fold k in Hk.
  split; [now rewrite length_map, length_seq|]. split.
  - apply Forall_forall. intros b Hb. apply in_map_iff in Hb as (i & <- & Hi).
    apply in_seq in Hi. rewrite length_firstn, length_skipn. lia.
  - rewrite concat_blocks by lia. reflexivity.
Qed.

(** A block of zero bytes decrypts to [0]. *)
Lemma deserialize_and_decrypt_zero :
  deserialize_and_decrypt (repeat x00 (POLYNOMIAL_DEGREE * 2 * 8)) = Ok {| val := 0 |}.
Proof. vm_compute. reflexivity. Qed.

Lemma sum_Z_repeat_0 (k : nat) : sum_Z (repeat 0 k) = 0.
Proof. induction k as [|k IH]; [reflexivity|]. unfold sum_Z in *. cbn. now rewrite IH. Qed.

Lemma sum_Z_zero_iff (l : list Z) :
  Forall (fun x => 0 <= x) l -> (sum_Z l =? 0) = forallb (fun x => x =? 0) l.
Proof.
  unfold sum_Z. induction 1 as [|x l Hx Hl IH]; [reflexivity|]. cbn [fold_right forallb].
  assert (H0 : 0 <= fold_right Z.add 0 l).
  { clear -Hl. induction Hl; cbn; lia. }
  rewrite <- IH.
  destruct (Z.eqb_spec x 0), (Z.eqb_spec (fold_right Z.add 0 l) 0);
    cbn; apply Z.eqb_neq || apply Z.eqb_eq; lia.
Qed.

(** Verification against [k] results of zero bytes. *)
Lemma verify_zero_results (prof : Profile) (ci : ChallengeInput) (r : list byte)
    (k n0 : nat) :
  sums_fit_i64 0 (challenge_plaintexts (challenge_metadata ci)) ->
  let ps := challenge_plaintexts (challenge_metadata ci) in
  verify_zkvm_result prof ci r (repeat (repeat x00 (POLYNOMIAL_DEGREE * 2 * 8)) k) n0 =
  (Some (if sum_Z ps =? 0
         then {| success := true; error := None;
                 decrypted_results := Some (repeat 0 k);
                 verification_log :=
                   log_from 0 (repeat 0 k) ++ [FheComputationVerified; ProofComplete] |}
         else {| success := false; error := Some (ArithmeticMismatch (sum_Z ps) 0);
                 decrypted_results := Some (repeat 0 k);
                 verification_log := log_from 0 (repeat 0 k) |}),
   (n0 + k)%nat).
Proof.
  intros Hp ps.
  assert (Hds : Forall2 (fun bytes d => deserialize_and_decrypt bytes = Ok {| val := d |})
                  (repeat (repeat x00 (POLYNOMIAL_DEGREE * 2 * 8)) k) (repeat 0 k)).
  { induction k as [|k IH]; constructor; [exact deserialize_and_decrypt_zero | exact IH]. }
  assert (Hz : sums_fit_i64 0 (repeat 0 k)).
  { apply (sums_fit_bounded 0); [lia | | lia | ].
    - apply Forall_forall. intros x Hx. apply repeat_spec in Hx. lia.
    - unfold i64_max. lia. }
  unfold verify_zkvm_result, verify_zkvm_result_with, verify_receipt. cbn [negb].
  unfold bind. rewrite (decrypt_results_all_ok _ _ Hds). cbn [app].
  unfold i64_sum. rewrite !i64_sum_from_fit by assumption.
  rewrite !Z.add_0_l, sum_Z_repeat_0, repeat_length. fold ps.
  destruct (sum_Z ps =? 0); reflexivity.
Qed.

Lemma sampled_plaintexts_fit (n : nat) (vote_rng : nat -> Z) :
  (forall j, (j < n)%nat -> 0 <= vote_rng j < 3) ->
  Z.of_nat n * 2 <= i64_max ->
  sums_fit_i64 0 (map vote_rng (seq 0 n)) /\
  Forall (fun x => 0 <= x) (map vote_rng (seq 0 n)).
Proof.
  intros Hr Hn.
  assert (Hf : Forall (fun x => 0 <= x <= 2) (map vote_rng (seq 0 n))).
  { apply Forall_forall. intros x Hx. apply in_map_iff in Hx as (j & <- & Hj).
    apply in_seq in Hj. specialize (Hr j ltac:(lia)). lia. }
  split.
  - apply (sums_fit_bounded 2); [lia | exact Hf | lia |].
    rewrite length_map, length_seq. lia.
  - eapply Forall_impl; [|exact Hf]. cbn. lia.
Qed.

Lemma create_challenge_ok (self : ExternalChallenger) (tid : string) (n : nat)
    (vote_rng : nat -> Z) (noise_rng : nat -> nat -> Z) (now : Z) :
  exists ci, create_challenge self tid n vote_rng noise_rng now = Some ci /\
    length (challenge_ciphertexts ci) = n /\
    challenge_plaintexts (challenge_metadata ci) = map vote_rng (seq 0 n).
Proof.
  unfold create_challenge.
  destruct (challenge_loop_spec n 0 vote_rng noise_rng) as (cs & Hl & Hlen).
  rewrite Hl. eexists. split; [reflexivity|]. split; [exact Hlen | reflexivity].
Qed.

(** With the simulated execution, a proof test of [n] challenges decrypts
    [n + 1] zero blocks and passes exactly when every sampled plaintext
    (in [[0, 3)], as [gen_range(0..3)] draws them) is [0]; the test
    result is appended to [test_results]. *)
Theorem run_proof_test_passes_iff_zero_plaintexts (prof : Profile)
    (self : Protocol.FheProofProtocol) (tid : string) (n : nat) (vote_rng : nat -> Z)
    (noise_rng : nat -> nat -> Z) (now : Z) (n0 : nat) :
  (forall j, (j < n)%nat -> 0 <= vote_rng j < 3) ->
  Z.of_nat n * 2 <= i64_max ->
  exists self',
    Protocol.run_proof_test prof self tid n vote_rng noise_rng now n0 =
    (Some (forallb (fun x => x =? 0) (map vote_rng (seq 0 n)), self'), (n0 + S n)%nat) /\
    Protocol.challenger self' = Protocol.challenger self /\
    length (Protocol.test_results self') = S (length (Protocol.test_results self)).
Proof.
  intros Hr Hn.
  destruct (sampled_plaintexts_fit n vote_rng Hr Hn) as [Hfit Hpos].
  destruct (create_challenge_ok (Protocol.challenger self) tid n
              vote_rng noise_rng now) as (ci & Hci & Hlen & Hps).
  unfold Protocol.run_proof_test. rewrite Hci.
  unfold Protocol.execute_zkvm_with_challenge, Protocol.verify_zkvm_proof. cbn [Protocol.journal_data Protocol.receipt].
  rewrite extract_result_ciphertexts_eq. unfold Protocol.simulate_fhe_results.
  rewrite repeat_length. change (32 * 2 * 8)%nat with 512%nat.
  rewrite Nat.div_mul by discriminate.
  replace (map (fun i => firstn 512 (skipn (i * 512) (repeat x00 ((length (challenge_ciphertexts ci) + 1) * 512))))
             (seq 0 (length (challenge_ciphertexts ci) + 1)))
    with (repeat (repeat x00 (POLYNOMIAL_DEGREE * 2 * 8)) (length (challenge_ciphertexts ci) + 1)).
  2:{ transitivity (map (fun _ : nat => repeat x00 (POLYNOMIAL_DEGREE * 2 * 8))
                      (seq 0 (length (challenge_ciphertexts ci) + 1))).
      - rewrite map_const, length_seq. reflexivity.
      - apply map_ext_in. intros i Hi. apply in_seq in Hi.
        rewrite skipn_repeat', firstn_repeat_le by nia. reflexivity. }
  rewrite <- Hps in Hfit.
  pose proof (verify_zero_results prof ci (repeat x00 32)
                (length (challenge_ciphertexts ci) + 1) n0 Hfit) as Hv.
  cbn zeta in Hv. rewrite Hps in Hv.
  unfold bind. rewrite Hv. cbn. unfold ret.
  rewrite <- (sum_Z_zero_iff _ Hpos), Hlen.
  replace (n0 + (n + 1))%nat with (n0 + S n)%nat by lia.
  destruct (sum_Z (map vote_rng (seq 0 n)) =? 0); eexists;
    (split; [reflexivity | split; [reflexivity|]]);
    cbn [Protocol.test_results]; rewrite length_app; cbn; lia.
Qed.

Definition example_protocol : Protocol.FheProofProtocol := {|
  Protocol.challenger := {| keys := {| public_key := {| key_data := [] |};
                                       private_key := {| secret_data := [] |} |};
                            challenger_parameters := default_parameters |};
  Protocol.test_results := [] |}.

Lemma run_proof_test_passes_iff_zero_plaintexts_witness :
  (forall j, (j < 3)%nat -> 0 <= (fun i => Z.of_nat i mod 3) j < 3) /\
  Z.of_nat 3 * 2 <= i64_max /\
  exists self',
    Protocol.run_proof_test Release example_protocol "small_challenge" 3
      (fun i => Z.of_nat i mod 3) (fun _ _ => 1) 0 O =
    (Some (forallb (fun x => x =? 0) (map (fun i => Z.of_nat i mod 3) (seq 0 3)), self'),
     (O + S 3)%nat) /\
    Protocol.challenger self' = Protocol.challenger example_protocol /\
    length (Protocol.test_results self') = S (length (Protocol.test_results example_protocol)).
Proof.
  assert (H1 : forall j, (j < 3)%nat -> 0 <= (fun i => Z.of_nat i mod 3) j < 3)
    by (intros j Hj; apply Z.mod_pos_bound; lia).
  assert (H2 : Z.of_nat 3 * 2 <= i64_max) by (unfold i64_max; lia).
  split; [exact H1|]. split; [exact H2|].
  exact (run_proof_test_passes_iff_zero_plaintexts Release example_protocol "small_challenge"
           3 (fun i => Z.of_nat i mod 3) (fun _ _ => 1) 0 O H1 H2).
Defined.

(** [run_challenge_protocol] answers its challenge of 5 vectors with 5
    zero blocks, which all decrypt to [0]: the verification succeeds
    exactly when all 5 sampled plaintexts are [0]. *)
Theorem run_challenge_protocol_passes_iff_zero (prof : Profile) (ch : ExternalChallenger)
    (vote_rng : nat -> Z) (noise_rng : nat -> nat -> Z) (now : Z) (n0 : nat) :
  (forall j, (j < 5)%nat -> 0 <= vote_rng j < 3) ->
  exists v,
    run_challenge_protocol prof ch vote_rng noise_rng now n0 = (Some v, (n0 + 5)%nat) /\
    success v = forallb (fun x => x =? 0) (map vote_rng (seq 0 5)) /\
    decrypted_results v = Some (repeat 0 5).
Proof.
  intros Hr.
  destruct (sampled_plaintexts_fit 5 vote_rng Hr ltac:(unfold i64_max; lia)) as [Hfit Hpos].
  destruct (create_challenge_ok ch "mathematical_proof_test" 5 vote_rng noise_rng now)
    as (ci & Hci & Hlen & Hps).
  unfold run_challenge_protocol. rewrite Hci, Hlen.
  rewrite <- Hps in Hfit.
  rewrite (verify_zero_results prof ci (repeat x00 32) 5 n0 Hfit). rewrite Hps.
  rewrite <- (sum_Z_zero_iff _ Hpos).
  destruct (sum_Z (map vote_rng (seq 0 5)) =? 0);
    eexists; (split; [reflexivity | split; reflexivity]).
Qed.

Lemma run_challenge_protocol_passes_iff_zero_witness :
  (forall j, (j < 5)%nat -> 0 <= (fun _ => 0) j < 3) /\
  exists v,
    run_challenge_protocol Debug (Protocol.challenger example_protocol) (fun _ => 0)
      (fun _ _ => 3) 0 O = (Some v, (O + 5)%nat) /\
    success v = forallb (fun x => x =? 0) (map (fun _ => 0) (seq 0 5)) /\
    decrypted_results v = Some (repeat 0 5).
Proof.
  assert (H : forall j, (j < 5)%nat -> 0 <= (fun _ => 0) j < 3) by (intros; lia).
  split; [exact H|].
  exact (run_challenge_protocol_passes_iff_zero Debug (Protocol.challenger example_protocol)
           (fun _ => 0) (fun _ _ => 3) 0 O H).
Defined.

(** ** The guest's tally *)

Definition three_tallies_shape (t : Tallies) : Prop :=
  let '(t1, t2, t3) := t in
  length (ciphertext_data t1) = (2 * POLYNOMIAL_DEGREE)%nat /\
  length (ciphertext_data t2) = (2 * POLYNOMIAL_DEGREE)%nat /\
  length (ciphertext_data t3) = (2 * POLYNOMIAL_DEGREE)%nat.

Lemma cipher_add_full (t c : Cipher) :
  length (ciphertext_data t) = (2 * POLYNOMIAL_DEGREE)%nat ->
  exists t', cipher_add t c = Some t' /\
             length (ciphertext_data t') = (2 * POLYNOMIAL_DEGREE)%nat.
Proof.
  intros Ht. destruct (cipher_add_some t c) as (t' & H & Hl & _); [rewrite Ht; lia|].
  eauto.
Qed.

Lemma add_candidates_shape (vs : list (list byte)) :
  forall idx t, three_tallies_shape t ->
  exists t', add_candidates idx vs t = Some t' /\ three_tallies_shape t'.
Proof.
  induction vs as [|b vs IH]; intros idx t Ht; [exists t; auto|].
  cbn [add_candidates].
  destruct (Nat.eq_dec (length b) (16 * POLYNOMIAL_DEGREE)) as [Hb|Hb].
  - destruct (deserialize_full b Hb) as (c & Hc & _). rewrite Hc.
    destruct t as [[t1 t2] t3]. destruct Ht as (H1 & H2 & H3).
    destruct idx as [|[|[|idx]]].
    + destruct (cipher_add_full t1 c H1) as (t1' & -> & H1'). apply IH. cbn; auto.
    + destruct (cipher_add_full t2 c H2) as (t2' & -> & H2'). apply IH. cbn; auto.
    + destruct (cipher_add_full t3 c H3) as (t3' & -> & H3'). apply IH. cbn; auto.
    + apply IH. cbn; auto.
  - rewrite (deserialize_wrong_length b Hb). apply IH. exact Ht.
Qed.

Lemma tally_votes_shape (votes : list EncryptedVote) :
  forall t, three_tallies_shape t ->
  exists t', tally_votes votes t = Some t' /\ three_tallies_shape t'.
Proof.
  induction votes as [|v votes IH]; intros t Ht; [exists t; auto|].
  cbn [tally_votes].
  destruct (negb _); [apply IH; exact Ht|].
  destruct (existsb _ _); [apply IH; exact Ht|].
  destruct (add_candidates_shape (encrypted_vote_vector v) 0 t Ht) as (t' & -> & Ht').
  apply IH. exact Ht'.
Qed.

Lemma encrypt_zero_ok (pk : PublicKey) (rng : nat -> Z) :
  exists c, encrypt {| val := 0 |} pk rng = Ok c /\
    length (ciphertext_data c) = (2 * POLYNOMIAL_DEGREE)%nat.
Proof.
  rewrite encrypt_in_range by (unfold PLAINTEXT_MODULUS; lia).
  eexists. split; [reflexivity|]. cbn [ciphertext_data length].
  rewrite length_map, length_seq. reflexivity.
Qed.

Lemma decrypt_full (c : Cipher) (sk : PrivateKey) :
  length (ciphertext_data c) = (2 * POLYNOMIAL_DEGREE)%nat ->
  exists v, decrypt c sk = Ok {| val := v |} /\ 0 <= v < PLAINTEXT_MODULUS.
Proof.
  intros H. unfold decrypt. destruct (ciphertext_data c) as [|x rest]; [discriminate H|].
  eexists. split; [reflexivity|]. apply Z.mod_pos_bound. reflexivity.
Qed.

Lemma as_u32_small (v : Z) : 0 <= v < PLAINTEXT_MODULUS -> as_u32 v = v.
Proof. intros H. unfold as_u32, PLAINTEXT_MODULUS in *. apply Z.mod_small. lia. Qed.

Lemma u32_add_small (prof : Profile) (a b : Z) :
  0 <= a -> 0 <= b -> a + b < 2 ^ 32 -> u32_add prof a b = Some (a + b).
Proof.
  intros Ha Hb H. destruct prof; cbn [u32_add].
  - apply Z.ltb_lt in H. now rewrite H.
  - rewrite Z.mod_small by lia. reflexivity.
Qed.

(** The tally after the three initial encryptions of zero. *)
Lemma tally_from_tallies (prof : Profile) (input : VoteTallyInput) (pk : PublicKey)
    (sk : PrivateKey) (rng1 rng2 rng3 : nat -> Z) :
  exists t1 t2 t3,
    three_tallies_shape (t1, t2, t3) /\
    tally_encrypted_votes_with_fhe prof input pk sk rng1 rng2 rng3 =
    match tally_votes (encrypted_votes input) (t1, t2, t3) with
    | None => None
    | Some (t1, t2, t3) =>
        match decrypt t1 sk, decrypt t2 sk, decrypt t3 sk with
        | Ok p1, Ok p2, Ok p3 =>
            let c1 := as_u32 (val p1) in
            let c2 := as_u32 (val p2) in
            let c3 := as_u32 (val p3) in
            match u32_add prof c1 c2 with
            | None => None
            | Some s =>
                match u32_add prof s c3 with
                | None => None
                | Some total =>
                    Some {| option1_count := c1; option2_count := c2; option3_count := c3;
                            total_votes := total;
                            computation_hash := create_computation_hash c1 c2 c3 |}
                end
            end
        | _, _, _ => None
        end
    end.
Proof.
  destruct (encrypt_zero_ok pk rng1) as (t1 & H1 & L1).
  destruct (encrypt_zero_ok pk rng2) as (t2 & H2 & L2).
  destruct (encrypt_zero_ok pk rng3) as (t3 & H3 & L3).
  exists t1, t2, t3. split; [cbn; auto|].
  unfold tally_encrypted_votes_with_fhe. rewrite H1, H2, H3. reflexivity.
Qed.

(** The guest's [main] panics exactly on more than [MAX_VOTES] votes:
    whatever the bytes of the votes, the tally never panics (no failed
    encryption or decryption, no out-of-range index, no [u32] overflow in
    a debug build), each count lies in [[0, P)], the total is their sum
    and the hash is the one of the three counts. *)
Theorem guest_main_panics_only_on_too_many_votes (prof : Profile)
    (input : VoteTallyInput) (pk : PublicKey) (sk : PrivateKey) (rng1 rng2 rng3 : nat -> Z) :
  (guest_main prof input pk sk rng1 rng2 rng3 = None <->
   (MAX_VOTES < length (encrypted_votes input))%nat) /\
  (forall out, guest_main prof input pk sk rng1 rng2 rng3 = Some out ->
   0 <= option1_count out < PLAINTEXT_MODULUS /\
   0 <= option2_count out < PLAINTEXT_MODULUS /\
   0 <= option3_count out < PLAINTEXT_MODULUS /\
   total_votes out = option1_count out + option2_count out + option3_count out /\
   computation_hash out =
     create_computation_hash (option1_count out) (option2_count out) (option3_count out)).
Proof.
  unfold guest_main.
  destruct (Nat.ltb_spec MAX_VOTES (length (encrypted_votes input))) as [Hn|Hn].
  - split; [split; auto|]. intros out H. discriminate.
  - destruct (tally_from_tallies prof input pk sk rng1 rng2 rng3) as (t1 & t2 & t3 & Hs & ->).
    destruct (tally_votes_shape (encrypted_votes input) _ Hs) as ([[u1 u2] u3] & -> & (L1 & L2 & L3)).
    destruct (decrypt_full u1 sk L1) as (v1 & -> & R1).
    destruct (decrypt_full u2 sk L2) as (v2 & -> & R2).
    destruct (decrypt_full u3 sk L3) as (v3 & -> & R3).
    cbn [val]. rewrite !as_u32_small by assumption.
    unfold PLAINTEXT_MODULUS in *.
    rewrite (u32_add_small prof v1 v2) by lia.
    rewrite (u32_add_small prof (v1 + v2) v3) by lia.
    split; [split; [discriminate | lia]|].
    intros out H. injection H as <-. cbn. repeat split; lia || reflexivity.
Qed.

(** The vote validation of the tally loop: votes without exactly three
    ciphertexts, or with one longer than 1024 bytes, have no effect. *)
Theorem tally_votes_skips_invalid (votes : list EncryptedVote) (t : Tallies) :
  tally_votes votes t = tally_votes (filter vote_is_valid votes) t.
Proof.
  revert t; induction votes as [|v votes IH]; intros t; [reflexivity|].
  cbn [filter]. destruct (vote_is_valid v) eqn:Hv.
  - cbn [tally_votes]. unfold vote_is_valid in Hv. apply andb_prop in Hv as [H1 H2].
    rewrite H1. apply negb_true_iff in H2. rewrite H2. cbn [negb].
    destruct (add_candidates 0 _ t); [apply IH | reflexivity].
  - rewrite <- IH. cbn [tally_votes]. unfold vote_is_valid in Hv.
    destruct (length (encrypted_vote_vector v) =? EXPECTED_CANDIDATES)%nat;
      cbn [andb negb] in Hv |- *; [|reflexivity].
    apply negb_false_iff in Hv. rewrite Hv. reflexivity.
Qed.

Lemma add_candidates_misfit (vs : list (list byte)) :
  Forall (fun b => length b <> (16 * POLYNOMIAL_DEGREE)%nat) vs ->
  forall idx t, add_candidates idx vs t = Some t.
Proof.
  induction 1 as [|b vs Hb _ IH]; intros idx t; [reflexivity|].
  cbn [add_candidates]. rewrite (deserialize_wrong_length b Hb). apply IH.
Qed.

(** A vote none of whose ciphertexts has exactly [16n] bytes leaves the
    tallies unchanged: each of its ciphertexts fails to deserialize and
    is skipped. *)
Theorem tally_votes_ignores_undeserializable (v : EncryptedVote)
    (votes : list EncryptedVote) (t : Tallies) :
  Forall (fun b => length b <> (16 * POLYNOMIAL_DEGREE)%nat) (encrypted_vote_vector v) ->
  tally_votes (v :: votes) t = tally_votes votes t.
Proof.
  intros H. cbn [tally_votes].
  destruct (negb _); [reflexivity|]. destruct (existsb _ _); [reflexivity|].
  rewrite (add_candidates_misfit _ H 0 t). reflexivity.
Qed.

Definition example_vote (vs : list (list byte)) : EncryptedVote := {|
  voter_address := "0x0";
  encrypted_vote_vector := vs;
  signature := "";
  actual_choice := Option1 |}.

Lemma tally_votes_ignores_undeserializable_witness :
  Forall (fun b => length b <> (16 * POLYNOMIAL_DEGREE)%nat)
    (encrypted_vote_vector (example_vote [[x00]; repeat x01 128; []])) /\
  tally_votes [example_vote [[x00]; repeat x01 128; []]]
    ({| ciphertext_data := [] |}, {| ciphertext_data := [] |}, {| ciphertext_data := [] |}) =
  tally_votes []
    ({| ciphertext_data := [] |}, {| ciphertext_data := [] |}, {| ciphertext_data := [] |}).
Proof.
  assert (H : Forall (fun b => length b <> (16 * POLYNOMIAL_DEGREE)%nat)
                (encrypted_vote_vector (example_vote [[x00]; repeat x01 128; []])))
    by (repeat constructor; discriminate).
  split; [exact H|].
  exact (tally_votes_ignores_undeserializable (example_vote [[x00]; repeat x01 128; []]) []
           ({| ciphertext_data := [] |}, {| ciphertext_data := [] |}, {| ciphertext_data := [] |}) H).
Defined.

(** A ciphertext of [2n] coefficients whose coefficient 0 is [m * S] plus
    a noise below [bound]. *)
Definition enc_of (m bound : Z) (c : Cipher) : Prop :=
  length (ciphertext_data c) = (2 * POLYNOMIAL_DEGREE)%nat /\
  exists e rest, 0 <= e < bound /\ ciphertext_data c = (m * scaling_factor + e) :: rest.

Lemma MAX_NOISE_BOUND_value : MAX_NOISE_BOUND = 4096.
Proof. reflexivity. Qed.

Lemma map_mod_u64 (ws : list Z) : Forall is_u64 ws -> map (fun w => w mod 2 ^ 64) ws = ws.
Proof.
  induction 1 as [|w ws Hw _ IH]; [reflexivity|]. cbn [map]. rewrite IH, Z.mod_small by exact Hw.
  reflexivity.
Qed.

Lemma serialize_length (c : Cipher) :
  length (ciphertext_data c) = (2 * POLYNOMIAL_DEGREE)%nat ->
  length (serialize c) = (16 * POLYNOMIAL_DEGREE)%nat.
Proof. intros H. unfold serialize. rewrite flat_map_to_le_bytes_length, H. reflexivity. Qed.

(** What a successful guest encryption of [m] guarantees. *)
Lemma encrypt_ok_facts (m : Z) (pk : PublicKey) (rng : nat -> Z) (c : Cipher) :
  encrypt {| val := m |} pk rng = Ok c ->
  0 <= m < PLAINTEXT_MODULUS /\ enc_of m MAX_NOISE_BOUND c /\
  deserialize_ciphertext (serialize c) = Ok c.
Proof.
  intros Hc.
  assert (Hm : 0 <= m < PLAINTEXT_MODULUS).
  { unfold encrypt in Hc. cbn [val] in Hc.
    destruct (Z.ltb_spec m 0); [discriminate|].
    rewrite Z.geb_leb in Hc. destruct (Z.leb_spec PLAINTEXT_MODULUS m); [discriminate|].
    lia. }
  rewrite (encrypt_in_range m pk rng Hm) in Hc.
  set (ws := _ :: map _ _) in Hc. injection Hc as <-.
  assert (Hl : length ws = (2 * POLYNOMIAL_DEGREE)%nat)
    by (subst ws; cbn [length]; rewrite length_map, length_seq; reflexivity).
  assert (Hu : Forall is_u64 ws).
  { subst ws. constructor.
    + pose proof (noise_range (rng O)). rewrite scaling_factor_value.
      unfold is_u64, PLAINTEXT_MODULUS in *. lia.
    + apply Forall_forall. intros x Hx. apply in_map_iff in Hx as (i & <- & _).
      pose proof (Z.mod_pos_bound (rng i) CIPHERTEXT_MODULUS ltac:(reflexivity)).
      unfold is_u64, CIPHERTEXT_MODULUS in *. lia. }
  split; [exact Hm|]. split.
  - split; [exact Hl|].
    eexists _, _. split; [|reflexivity]. apply Z.mod_pos_bound. reflexivity.
  - change (serialize {| ciphertext_data := ws |}) with (flat_map to_le_bytes ws).
    clearbody ws. rewrite (deserialize_serialize_mod _ Hl), (map_mod_u64 _ Hu).
    reflexivity.
Qed.

(** Adding a fresh encryption of [m] to an encryption of [M] gives an
    encryption of [M + m], with the noise bounds added, while no
    coefficient 0 wraps. *)
Lemma cipher_add_enc_of (M m B : Z) (t c : Cipher) :
  enc_of M B t -> enc_of m MAX_NOISE_BOUND c -> 0 <= M -> 0 <= m ->
  M + m < PLAINTEXT_MODULUS -> B + MAX_NOISE_BOUND <= scaling_factor ->
  exists t', cipher_add t c = Some t' /\ enc_of (M + m) (B + MAX_NOISE_BOUND) t'.
Proof.
  intros [Lt (e & rest & He & Ht)] [Lc (e' & rest' & He' & Hc)] HM Hm Hs HB.
  destruct (cipher_add_some t c) as (t' & Ha & Hl & Hn); [rewrite Lt, Lc; lia|].
  exists t'. split; [exact Ha|]. split; [exact Hl|].
  specialize (Hn O). rewrite Lt, Lc in Hn. rewrite Ht, Hc in Hn.
  cbn [nth Nat.min Nat.ltb Nat.leb POLYNOMIAL_DEGREE Nat.mul Nat.add] in Hn.
  rewrite add_coeff_spec in Hn.
  destruct (ciphertext_data t') as [|x rest'']; [discriminate Hl|].
  cbn [nth] in Hn. subst x. exists (e + e'), rest''. split; [lia|]. f_equal.
  rewrite scaling_factor_value, MAX_NOISE_BOUND_value in *.
  unfold PLAINTEXT_MODULUS, CIPHERTEXT_MODULUS in *.
  rewrite Z.mod_small; [lia|]. nia.
Qed.

(** A vote of three fresh guest encryptions of the plaintexts
    [ms = (m1, m2, m3)], each serialized. *)
Definition fresh_vote (v : EncryptedVote) (ms : Z * Z * Z) : Prop :=
  exists pk rng1 rng2 rng3 c1 c2 c3,
    encrypt {| val := fst (fst ms) |} pk rng1 = Ok c1 /\
    encrypt {| val := snd (fst ms) |} pk rng2 = Ok c2 /\
    encrypt {| val := snd ms |} pk rng3 = Ok c3 /\
    encrypted_vote_vector v = [serialize c1; serialize c2; serialize c3].

Definition column1 (ms : list (Z * Z * Z)) : list Z := map (fun m => fst (fst m)) ms.
Definition column2 (ms : list (Z * Z * Z)) : list Z := map (fun m => snd (fst m)) ms.
Definition column3 (ms : list (Z * Z * Z)) : list Z := map (fun m => snd m) ms.

Lemma sum_Z_nonneg (l : list Z) : Forall (fun x => 0 <= x) l -> 0 <= sum_Z l.
Proof. unfold sum_Z. induction 1; cbn; lia. Qed.

Lemma fresh_vote_range (v : EncryptedVote) (m1 m2 m3 : Z) :
  fresh_vote v (m1, m2, m3) ->
  0 <= m1 < PLAINTEXT_MODULUS /\ 0 <= m2 < PLAINTEXT_MODULUS /\ 0 <= m3 < PLAINTEXT_MODULUS.
Proof.
  intros (pk & r1 & r2 & r3 & c1 & c2 & c3 & H1 & H2 & H3 & _). cbn [fst snd] in *.
  destruct (encrypt_ok_facts _ _ _ _ H1) as (R1 & _).
  destruct (encrypt_ok_facts _ _ _ _ H2) as (R2 & _).
  destruct (encrypt_ok_facts _ _ _ _ H3) as (R3 & _).
  auto.
Qed.

Lemma columns_nonneg (votes : list EncryptedVote) (ms : list (Z * Z * Z)) :
  Forall2 fresh_vote votes ms ->
  0 <= sum_Z (column1 ms) /\ 0 <= sum_Z (column2 ms) /\ 0 <= sum_Z (column3 ms).
Proof.
  unfold column1, column2, column3, sum_Z.
  induction 1 as [|v [[a b] c] vs ms Hv _ IH]; [cbn; lia|].
  apply fresh_vote_range in Hv. cbn [map fold_right fst snd]. lia.
Qed.

Lemma tally_votes_fresh (votes : list EncryptedVote) (ms : list (Z * Z * Z)) :
  Forall2 fresh_vote votes ms ->
  forall t1 t2 t3 M1 M2 M3 B,
  enc_of M1 B t1 -> enc_of M2 B t2 -> enc_of M3 B t3 ->
  0 <= M1 -> 0 <= M2 -> 0 <= M3 ->
  M1 + sum_Z (column1 ms) < PLAINTEXT_MODULUS ->
  M2 + sum_Z (column2 ms) < PLAINTEXT_MODULUS ->
  M3 + sum_Z (column3 ms) < PLAINTEXT_MODULUS ->
  B + Z.of_nat (length ms) * MAX_NOISE_BOUND <= scaling_factor ->
  exists u1 u2 u3,
    tally_votes votes (t1, t2, t3) = Some (u1, u2, u3) /\
    enc_of (M1 + sum_Z (column1 ms)) (B + Z.of_nat (length ms) * MAX_NOISE_BOUND) u1 /\
    enc_of (M2 + sum_Z (column2 ms)) (B + Z.of_nat (length ms) * MAX_NOISE_BOUND) u2 /\
    enc_of (M3 + sum_Z (column3 ms)) (B + Z.of_nat (length ms) * MAX_NOISE_BOUND) u3.
Proof.
  induction 1 as [|v [[m1 m2] m3] votes ms Hv Hvs IH];
    intros t1 t2 t3 M1 M2 M3 B E1 E2 E3 P1 P2 P3 S1 S2 S3 HB.
  - exists t1, t2, t3. cbn. rewrite !Z.add_0_r. auto.
  - pose proof (fresh_vote_range _ _ _ _ Hv) as (R1 & R2 & R3).
    destruct Hv as (pk & r1 & r2 & r3 & c1 & c2 & c3 & H1 & H2 & H3 & Hvec).
    cbn [fst snd] in H1, H2, H3.
    destruct (encrypt_ok_facts _ _ _ _ H1) as (_ & F1 & D1).
    destruct (encrypt_ok_facts _ _ _ _ H2) as (_ & F2 & D2).
    destruct (encrypt_ok_facts _ _ _ _ H3) as (_ & F3 & D3).
    destruct (columns_nonneg _ _ Hvs) as (N1 & N2 & N3).
    unfold column1, column2, column3, sum_Z in S1, S2, S3 |- *.
    cbn [map fold_right fst snd length] in *.
    fold (column1 ms) (column2 ms) (column3 ms) in *.
    fold (sum_Z (column1 ms)) (sum_Z (column2 ms)) (sum_Z (column3 ms)) in *.
    rewrite Nat2Z.inj_succ in HB |- *.
    assert (HM : MAX_NOISE_BOUND = 4096) by reflexivity.
    assert (HB' : B + MAX_NOISE_BOUND <= scaling_factor) by nia.
    destruct (cipher_add_enc_of M1 m1 B t1 c1 E1 F1 P1 ltac:(lia) ltac:(lia) HB')
      as (t1' & A1 & E1').
    destruct (cipher_add_enc_of M2 m2 B t2 c2 E2 F2 P2 ltac:(lia) ltac:(lia) HB')
      as (t2' & A2 & E2').
    destruct (cipher_add_enc_of M3 m3 B t3 c3 E3 F3 P3 ltac:(lia) ltac:(lia) HB')
      as (t3' & A3 & E3').
    destruct (IH t1' t2' t3' (M1 + m1) (M2 + m2) (M3 + m3) (B + MAX_NOISE_BOUND)
                E1' E2' E3' ltac:(lia) ltac:(lia) ltac:(lia) ltac:(lia) ltac:(lia) ltac:(lia)
                ltac:(lia)) as (u1 & u2 & u3 & Ht & U1 & U2 & U3).
    exists u1, u2, u3.
    cbn [tally_votes]. rewrite Hvec.
    cbn [length existsb negb Nat.eqb EXPECTED_CANDIDATES].
    rewrite (serialize_length c1 (proj1 F1)), (serialize_length c2 (proj1 F2)),
      (serialize_length c3 (proj1 F3)).
    change (MAX_CIPHERTEXT_SIZE <? 16 * POLYNOMIAL_DEGREE)%nat with false. cbn [orb].
    cbn [add_candidates]. rewrite D1, A1, D2, A2, D3, A3. rewrite Ht.
    replace (M1 + (m1 + sum_Z (column1 ms))) with (M1 + m1 + sum_Z (column1 ms)) by lia.
    replace (M2 + (m2 + sum_Z (column2 ms))) with (M2 + m2 + sum_Z (column2 ms)) by lia.
    replace (M3 + (m3 + sum_Z (column3 ms))) with (M3 + m3 + sum_Z (column3 ms)) by lia.
    replace (B + Z.succ (Z.of_nat (length ms)) * MAX_NOISE_BOUND)
      with (B + MAX_NOISE_BOUND + Z.of_nat (length ms) * MAX_NOISE_BOUND) by lia.
    auto.
Qed.

Lemma MAX_VOTES_Z : Z.of_nat MAX_VOTES = 10000.
Proof. vm_compute. reflexivity. Qed.

Lemma enc_of_decrypts (m B : Z) (c : Cipher) (sk : PrivateKey) :
  enc_of m B c -> 0 <= m < PLAINTEXT_MODULUS -> B <= scaling_factor ->
  decrypt c sk = Ok {| val := m |}.
Proof.
  intros [_ (e & rest & He & Hc)] Hm HB.
  rewrite (decrypt_head c sk _ rest Hc). do 2 f_equal.
  assert (HS : 0 < scaling_factor) by (rewrite scaling_factor_value; lia).
  rewrite Z.div_add_l by lia. rewrite (Z.div_small e) by lia.
  rewrite Z.add_0_r. apply Z.mod_small. exact Hm.
Qed.

(** The guest's tally is correct on honest votes: when every vote is
    three fresh encryptions (serialized) of plaintexts [(m1, m2, m3)],
    there are at most [MAX_VOTES] of them, and each column sum stays below
    the plaintext modulus, [main] does not panic and commits the three
    column sums as the counts, their sum as the total, and the hash of
    the counts. *)
Theorem guest_main_counts_fresh_votes (prof : Profile) (input : VoteTallyInput)
    (pk : PublicKey) (sk : PrivateKey) (rng1 rng2 rng3 : nat -> Z)
    (ms : list (Z * Z * Z)) :
  Forall2 fresh_vote (encrypted_votes input) ms ->
  (length (encrypted_votes input) <= MAX_VOTES)%nat ->
  sum_Z (column1 ms) < PLAINTEXT_MODULUS ->
  sum_Z (column2 ms) < PLAINTEXT_MODULUS ->
  sum_Z (column3 ms) < PLAINTEXT_MODULUS ->
  guest_main prof input pk sk rng1 rng2 rng3 =
  Some {| option1_count := sum_Z (column1 ms);
          option2_count := sum_Z (column2 ms);
          option3_count := sum_Z (column3 ms);
          total_votes := sum_Z (column1 ms) + sum_Z (column2 ms) + sum_Z (column3 ms);
          computation_hash := create_computation_hash (sum_Z (column1 ms))
                                (sum_Z (column2 ms)) (sum_Z (column3 ms)) |}.
Proof.
  intros Hf Hn S1 S2 S3.
  pose proof (Forall2_length Hf) as Hlen.
  destruct (columns_nonneg _ _ Hf) as (N1 & N2 & N3).
  unfold guest_main. replace (MAX_VOTES <? length (encrypted_votes input))%nat with false
    by (symmetry; apply Nat.ltb_ge; exact Hn).
  unfold tally_encrypted_votes_with_fhe.
  destruct (encrypt_zero_ok pk rng1) as (z1 & Z1 & _).
  destruct (encrypt_zero_ok pk rng2) as (z2 & Z2 & _).
  destruct (encrypt_zero_ok pk rng3) as (z3 & Z3 & _).
  rewrite Z1, Z2, Z3.
  destruct (encrypt_ok_facts _ _ _ _ Z1) as (_ & E1 & _).
  destruct (encrypt_ok_facts _ _ _ _ Z2) as (_ & E2 & _).
  destruct (encrypt_ok_facts _ _ _ _ Z3) as (_ & E3 & _).
  assert (HB : MAX_NOISE_BOUND + Z.of_nat (length ms) * MAX_NOISE_BOUND <= scaling_factor).
  { rewrite MAX_NOISE_BOUND_value, scaling_factor_value.
    apply Nat2Z.inj_le in Hn. rewrite MAX_VOTES_Z in Hn. lia. }
  destruct (tally_votes_fresh _ _ Hf z1 z2 z3 0 0 0 MAX_NOISE_BOUND E1 E2 E3
              ltac:(lia) ltac:(lia) ltac:(lia) ltac:(lia) ltac:(lia) ltac:(lia) HB)
    as (u1 & u2 & u3 & Ht & U1 & U2 & U3).
  rewrite Ht. rewrite !Z.add_0_l in U1, U2, U3.
  assert (HB' : MAX_NOISE_BOUND + Z.of_nat (length ms) * MAX_NOISE_BOUND <= scaling_factor)
    by exact HB.
  rewrite (enc_of_decrypts _ _ u1 sk U1), (enc_of_decrypts _ _ u2 sk U2),
    (enc_of_decrypts _ _ u3 sk U3) by (exact HB' || lia).
  cbn [val]. rewrite !as_u32_small by lia.
  unfold PLAINTEXT_MODULUS in *.
  rewrite u32_add_small by lia. rewrite u32_add_small by lia.
  reflexivity.
Qed.

Definition example_key : PublicKey := {| key_data := [] |}.

(** A guest encryption of [m] with an all-zero noise stream. *)
Definition example_enc (m : Z) : Cipher :=
  match encrypt {| val := m |} example_key (fun _ => 0) with
  | Ok c => c
  | _ => {| ciphertext_data := [] |}
  end.

Definition example_fresh_input : VoteTallyInput := {|
  encrypted_votes :=
    [example_vote [serialize (example_enc 1); serialize (example_enc 0);
                   serialize (example_enc 0)];
     example_vote [serialize (example_enc 0); serialize (example_enc 0);
                   serialize (example_enc 1)];
     example_vote [serialize (example_enc 1); serialize (example_enc 0);
                   serialize (example_enc 0)]] |}.

Definition example_plaintexts : list (Z * Z * Z) := [(1, 0, 0); (0, 0, 1); (1, 0, 0)].

Lemma guest_main_counts_fresh_votes_witness :
  Forall2 fresh_vote (encrypted_votes example_fresh_input) example_plaintexts /\
  (length (encrypted_votes example_fresh_input) <= MAX_VOTES)%nat /\
  sum_Z (column1 example_plaintexts) < PLAINTEXT_MODULUS /\
  sum_Z (column2 example_plaintexts) < PLAINTEXT_MODULUS /\
  sum_Z (column3 example_plaintexts) < PLAINTEXT_MODULUS /\
  guest_main Release example_fresh_input example_key {| secret_data := [] |}
    (fun _ => 0) (fun _ => 0) (fun _ => 0) =
  Some {| option1_count := 2; option2_count := 0; option3_count := 1; total_votes := 3;
          computation_hash := create_computation_hash 2 0 1 |}.
Proof.
  assert (HF : Forall2 fresh_vote (encrypted_votes example_fresh_input) example_plaintexts).
  { unfold example_fresh_input, example_plaintexts. cbn [encrypted_votes].
    repeat (apply Forall2_cons;
      [exists example_key, (fun _ => 0), (fun _ => 0), (fun _ => 0);
       match goal with
       | |- context [example_vote [serialize ?a; serialize ?b; serialize ?c]] =>
           exists a, b, c
       end;
       repeat split; vm_compute; reflexivity |]).
    apply Forall2_nil. }
  assert (HL : (length (encrypted_votes example_fresh_input) <= MAX_VOTES)%nat)
    by (apply Nat.leb_le; vm_compute; reflexivity).
  assert (H1 : sum_Z (column1 example_plaintexts) < PLAINTEXT_MODULUS) by (vm_compute; reflexivity).
  assert (H2 : sum_Z (column2 example_plaintexts) < PLAINTEXT_MODULUS) by (vm_compute; reflexivity).
  assert (H3 : sum_Z (column3 example_plaintexts) < PLAINTEXT_MODULUS) by (vm_compute; reflexivity).
  refine (conj HF (conj HL (conj H1 (conj H2 (conj H3 _))))).
  exact (guest_main_counts_fresh_votes Release example_fresh_input example_key
           {| secret_data := [] |} (fun _ => 0) (fun _ => 0) (fun _ => 0) example_plaintexts
           HF HL H1 H2 H3).
Defined.

(** ** The computation hash *)

Lemma lor_disjoint (a b k : Z) :
  0 <= k -> 0 <= b < 2 ^ k -> Z.lor (a * 2 ^ k) b = a * 2 ^ k + b.
Proof.
  intros Hk Hb.
  assert (H : Z.land (a * 2 ^ k) b = 0).
  { apply Z.bits_inj'. intros i Hi. rewrite Z.land_spec, Z.bits_0.
    destruct (Z.ltb_spec i k).
    - rewrite Z.mul_pow2_bits_low by lia. reflexivity.
    - rewrite <- (Z.mod_small b (2 ^ k)) by lia.
      rewrite Z.mod_pow2_bits_high by lia. apply andb_false_r. }
  rewrite <- Z.lxor_lor by exact H. rewrite <- Z.add_nocarry_lxor by exact H.
  reflexivity.
Qed.

Lemma lor_mul_pow2 (a b k : Z) :
  0 <= k -> Z.lor (a * 2 ^ k) (b * 2 ^ k) = Z.lor a b * 2 ^ k.
Proof. intros Hk. rewrite <- !Z.shiftl_mul_pow2 by exact Hk. symmetry. apply Z.shiftl_lor. Qed.

Lemma u64_shl_small (x k : Z) :
  0 <= k -> 0 <= x * 2 ^ k < 2 ^ 64 -> u64_shl x k = x * 2 ^ k.
Proof. intros Hk Hx. unfold u64_shl. rewrite Z.shiftl_mul_pow2 by exact Hk. apply Z.mod_small, Hx. Qed.

(** The word [create_computation_hash] multiplies: the three counts packed
    at bits 32, 16 and 0 while the last two fit in 16 bits. *)
Lemma combined_value (c1 c2 c3 : Z) :
  0 <= c1 < 2 ^ 32 -> 0 <= c2 < 2 ^ 16 -> 0 <= c3 < 2 ^ 16 ->
  Z.lor (Z.lor (u64_shl c1 32) (u64_shl c2 16)) c3 = c1 * 2 ^ 32 + c2 * 2 ^ 16 + c3.
Proof.
  intros H1 H2 H3.
  rewrite (u64_shl_small c1 32), (u64_shl_small c2 16) by lia.
  rewrite lor_disjoint by lia.
  replace (c1 * 2 ^ 32 + c2 * 2 ^ 16) with ((c1 * 2 ^ 16 + c2) * 2 ^ 16) by lia.
  apply lor_disjoint; lia.
Qed.

(** Reading back a lower-case hexadecimal digit. *)
Definition hex_val (a : ascii) : Z :=
  let n := Z.of_nat (nat_of_ascii a) in
  if n <? 58 then n - 48 else n - 87.

Definition hex_value (l : list ascii) : Z :=
  fold_left (fun acc a => acc * 16 + hex_val a) l 0.

Lemma hex_val_digit (d : Z) : 0 <= d < 16 -> hex_val (hex_digit d) = d.
Proof.
  intros Hd. unfold hex_val, hex_digit.
  destruct (Z.ltb_spec d 10).
  - rewrite nat_ascii_embedding by lia. rewrite Z2Nat.id by lia.
    destruct (Z.ltb_spec (48 + d) 58); lia.
  - rewrite nat_ascii_embedding by lia. rewrite Z2Nat.id by lia.
    destruct (Z.ltb_spec (87 + d) 58); lia.
Qed.

Lemma hex_value_snoc (l : list ascii) (a : ascii) :
  hex_value (l ++ [a]) = hex_value l * 16 + hex_val a.
Proof. unfold hex_value. rewrite fold_left_app. reflexivity. Qed.

Lemma hex_value_digits (fuel : nat) (x : Z) :
  0 <= x < 16 ^ Z.of_nat fuel -> hex_value (hex_digits fuel x) = x.
Proof.
  revert x. induction fuel as [|f IH]; intros x Hx.
  - cbn in Hx. cbn. lia.
  - cbn [hex_digits]. destruct (Z.eqb_spec x 0) as [->|Hne]; [reflexivity|].
    rewrite hex_value_snoc, hex_val_digit by (apply Z.mod_pos_bound; lia).
    rewrite Nat2Z.inj_succ, Z.pow_succ_r in Hx by lia.
    rewrite IH by (split; [apply Z.div_pos | apply Z.div_lt_upper_bound]; lia).
    pose proof (Z.div_mod x 16). lia.
Qed.

Lemma hex_value_zeros (k : nat) (l : list ascii) :
  hex_value (repeat "0"%char k ++ l) = hex_value l.
Proof.
  unfold hex_value. rewrite fold_left_app. f_equal.
  induction k as [|k IH]; [reflexivity|]. cbn [repeat fold_left].
  replace (0 * 16 + hex_val "0"%char) with 0 by reflexivity. exact IH.
Qed.

(** [format!("{:016x}", x)] reads back as [x] on every [u64]. *)
Lemma format_hex_016_value (x : Z) :
  0 <= x < 2 ^ 64 -> hex_value (list_ascii_of_string (format_hex_016 x)) = x.
Proof.
  intros Hx. unfold format_hex_016.
  rewrite list_ascii_of_string_of_list_ascii, hex_value_zeros.
  pose proof (hex_value_digits 16 x ltac:(cbn; lia)) as H.
  destruct (hex_digits 16 x); [rewrite <- H; reflexivity | exact H].
Qed.

Lemma hash_mul_inverse (y : Z) :
  (y * 11400714819323198485) mod 2 ^ 64 * 17428512612931826493 mod 2 ^ 64 = y mod 2 ^ 64.
Proof.
  rewrite Z.mul_mod_idemp_l by discriminate. rewrite <- Z.mul_assoc.
  rewrite <- Z.mul_mod_idemp_r by discriminate.
  change ((11400714819323198485 * 17428512612931826493) mod 2 ^ 64) with 1.
  rewrite Z.mul_1_r. reflexivity.
Qed.

(** [create_computation_hash] tells apart any two count triples whose
    first count is a [u32] and whose other two counts fit in 16 bits: the
    packing is then one-to-one, the odd multiplier is invertible modulo
    [2^64], and [{:016x}] is one-to-one on [u64]s. *)
Theorem create_computation_hash_injective (a1 a2 a3 b1 b2 b3 : Z) :
  0 <= a1 < 2 ^ 32 -> 0 <= a2 < 2 ^ 16 -> 0 <= a3 < 2 ^ 16 ->
  0 <= b1 < 2 ^ 32 -> 0 <= b2 < 2 ^ 16 -> 0 <= b3 < 2 ^ 16 ->
  create_computation_hash a1 a2 a3 = create_computation_hash b1 b2 b3 ->
  a1 = b1 /\ a2 = b2 /\ a3 = b3.
Proof.
  intros A1 A2 A3 B1 B2 B3 H. unfold create_computation_hash in H.
  rewrite !combined_value in H by assumption.
  apply (f_equal (fun s => hex_value (list_ascii_of_string s))) in H.
  rewrite !format_hex_016_value in H by (apply Z.mod_pos_bound; reflexivity).
  apply (f_equal (fun z => z * 17428512612931826493 mod 2 ^ 64)) in H.
  rewrite !hash_mul_inverse in H. rewrite !Z.mod_small in H by lia.
  lia.
Qed.

Lemma create_computation_hash_injective_witness :
  (0 <= 3 < 2 ^ 32 /\ 0 <= 2 < 2 ^ 16 /\ 0 <= 2 < 2 ^ 16 /\
   0 <= 3 < 2 ^ 32 /\ 0 <= 2 < 2 ^ 16 /\ 0 <= 2 < 2 ^ 16 /\
   create_computation_hash 3 2 2 = create_computation_hash 3 2 2) /\
  (3 = 3 /\ 2 = 2 /\ 2 = 2).
Proof.
  split; [repeat split; lia || reflexivity|].
  apply (create_computation_hash_injective 3 2 2 3 2 2); lia || reflexivity.
Defined.

(** Out of that range the packing overlaps: a second count of [2^16] or
    more sets bit 32, which is the low bit of the first count, so an even
    first count [c1] with [c2 + 2^16] hashes as [c1 + 1] with [c2]. *)
Theorem create_computation_hash_collision (c1 c2 c3 : Z) :
  Z.even c1 = true -> 0 <= c1 -> c1 + 1 < 2 ^ 32 ->
  0 <= c2 < 2 ^ 16 -> 0 <= c3 < 2 ^ 16 ->
  create_computation_hash c1 (c2 + 2 ^ 16) c3 = create_computation_hash (c1 + 1) c2 c3.
Proof.
  intros He H1 H1' H2 H3. unfold create_computation_hash.
  rewrite (combined_value (c1 + 1) c2 c3) by lia.
  rewrite (u64_shl_small c1 32), (u64_shl_small (c2 + 2 ^ 16) 16) by lia.
  apply Z.even_spec in He as [h ->].
  replace (2 * h * 2 ^ 32) with (h * 2 ^ 17 * 2 ^ 16) by lia.
  rewrite lor_mul_pow2, lor_disjoint by lia. rewrite lor_disjoint by lia.
  do 2 f_equal. lia.
Qed.

Lemma create_computation_hash_collision_witness :
  (Z.even 0 = true /\ 0 <= 0 /\ 0 + 1 < 2 ^ 32 /\ 0 <= 0 < 2 ^ 16 /\ 0 <= 0 < 2 ^ 16) /\
  create_computation_hash 0 (0 + 2 ^ 16) 0 = create_computation_hash (0 + 1) 0 0.
Proof.
  split; [repeat split; lia || reflexivity|].
  apply (create_computation_hash_collision 0 0 0); lia || reflexivity.
Defined.

(** ** The host client against the guest *)

Lemma client_encrypt_ok (p : Signed) (rng : nat -> Z) :
  exists c, Client.encrypt p rng = Ok c /\
    length (ciphertext_data c) = (2 * Client.POLYNOMIAL_DEGREE)%nat.
Proof.
  eexists. split; [reflexivity|].
  cbn [ciphertext_data length]. rewrite length_map, length_seq. reflexivity.
Qed.

Lemma client_encrypt_candidates_ok (count idx : nat) (choice : VoteOption)
    (rng : nat -> nat -> Z) :
  exists bs, Client.encrypt_candidates idx count choice rng = Ok bs /\
    length bs = count /\
    Forall (fun b => length b = (16 * Client.POLYNOMIAL_DEGREE)%nat) bs.
Proof.
  revert idx. induction count as [|count IH]; intros idx.
  - exists []. auto.
  - cbn [Client.encrypt_candidates].
    match goal with |- context [Client.encrypt ?p (rng idx)] =>
      destruct (client_encrypt_ok p (rng idx)) as (c & -> & Hc) end.
    destruct (IH (S idx)) as (bs & -> & Hl & Hf).
    exists (serialize c :: bs). split; [reflexivity|]. split; [cbn; lia|].
    constructor; [|exact Hf].
    unfold serialize. rewrite flat_map_to_le_bytes_length, Hc. reflexivity.
Qed.

(** The host client's ballots never count: [encrypt_vote_vector] always
    succeeds with three ciphertexts of [16 * 8 = 128] bytes (its
    polynomial degree is 8), the guest's [deserialize_ciphertext] rejects
    each for not having [16 * 32 = 512] bytes, and a vote carrying them
    passes the guest's validation but leaves the tallies unchanged. *)
Theorem client_vote_vector_not_counted (choice : VoteOption) (rng : nat -> nat -> Z) :
  exists bs, Client.encrypt_vote_vector choice rng = Ok bs /\
    length bs = EXPECTED_CANDIDATES /\
    Forall (fun b => length b = 128%nat /\
                     deserialize_ciphertext b = Err (InvalidCiphertextLength 512 128)) bs /\
    forall v votes t, encrypted_vote_vector v = bs ->
      vote_is_valid v = true /\ tally_votes (v :: votes) t = tally_votes votes t.
Proof.
  destruct (client_encrypt_candidates_ok 3 0 choice rng) as (bs & Hbs & Hl & Hf).
  exists bs. split; [exact Hbs|]. split; [exact Hl|].
  assert (Hf' : Forall (fun b => length b <> (16 * POLYNOMIAL_DEGREE)%nat) bs).
  { eapply Forall_impl; [|exact Hf]. intros b Hb. cbn in Hb |- *. lia. }
  split.
  - eapply Forall_impl; [|exact Hf]. intros b Hb. cbn in Hb. split; [exact Hb|].
    unfold deserialize_ciphertext. rewrite Hb. reflexivity.
  - intros v votes t Hv.
    assert (E : existsb (fun b => MAX_CIPHERTEXT_SIZE <? length b)%nat bs = false).
    { destruct (existsb _ bs) eqn:E; [|reflexivity].
      apply existsb_exists in E as (b & Hin & Hb). rewrite Forall_forall in Hf.
      rewrite (Hf b Hin) in Hb. discriminate. }
    split.
    + unfold vote_is_valid. rewrite Hv, Hl, E. reflexivity.
    + cbn [tally_votes]. rewrite Hv, Hl, E. cbn [Nat.eqb EXPECTED_CANDIDATES negb].
      rewrite (add_candidates_misfit bs Hf' 0 t). reflexivity.
Qed.
